(** * Carousel widget (src/carousel.js): shallow embedding and verified properties

    The widget is a JavaScript class [Carousel] plus a registry
    [globalCarousels] and two free functions kept for old [onclick]
    handlers.  The embedding follows the source method by method.

    Modelling choices
    - JavaScript numbers that hold indices, directions and screen
      coordinates are modelled as [Z]: every caller in the source passes
      integers, and the verified properties quantify over integers only.
    - A DOM element is its node identity together with the one bit of its
      [classList] the widget touches, the presence of the class [active].
    - [setInterval] / [clearInterval] act on an explicit table of live
      interval timers.  A timer handle is a [positive]: the HTML standard
      makes the handle an integer greater than zero, so the truthiness
      test in [stopAutoAdvance] succeeds exactly when a handle is stored.
    - A method of the class is a function on the pair (instance fields,
      timer table); the object identity [this] is an explicit argument
      because the interval callback closes over it. *)

From stdpp Require Import gmap strings list fin_maps.
From Stdlib Require Import ZArith Lia.

Local Open Scope Z_scope.

(** ** The DOM fragment the widget reads and toggles *)

Record Element := mkElement {
  node : nat;        (* identity of the DOM node *)
  active : bool      (* classList.contains('active') *)
}.

Definition classList_remove_active (e : Element) : Element :=
  mkElement (node e) false.

Definition classList_add_active (e : Element) : Element :=
  mkElement (node e) true.

(** What [container.querySelectorAll] / [querySelector] find inside one
    container element. *)
Record Container := mkContainer {
  slideNodes : list Element;       (* '.carousel-slide' *)
  indicatorNodes : list Element;   (* '.indicator' *)
  prevBtn : bool;                  (* a '.carousel-btn-prev' exists *)
  nextBtn : bool                   (* a '.carousel-btn-next' exists *)
}.

(** [list[index]] on a NodeList: [undefined] below zero and past the end. *)
Definition nodeAt (l : list Element) (index : Z) : option Element :=
  if index <? 0 then None else l !! Z.to_nat index.

(** Number of elements of a list that carry the class [active]. *)
Fixpoint countActive (l : list Element) : nat :=
  match l with
  | [] => O
  | e :: l' => ((if active e then 1 else 0) + countActive l')%nat
  end.

(** ** Interval timers of the page *)

(** Identity of a JavaScript object. *)
Abbreviation ref := nat (only parsing).

Record Interval := mkInterval {
  callbackThis : ref;   (* the instance the arrow function closes over *)
  delay : Z
}.

Record Timers := mkTimers {
  live : gmap positive Interval;
  nextHandle : positive
}.

Definition setInterval (owner : ref) (ms : Z) (T : Timers) : positive * Timers :=
  (nextHandle T,
   mkTimers (<[nextHandle T := mkInterval owner ms]> (live T))
            (Pos.succ (nextHandle T))).

Definition clearInterval (h : positive) (T : Timers) : Timers :=
  mkTimers (delete h (live T)) (nextHandle T).

(** The live timers whose callback belongs to instance [r]. *)
Definition timersOf (r : ref) (T : Timers) : gmap positive Interval :=
  filter (λ kv, callbackThis kv.2 = r) (live T).

Definition liveTimers (r : ref) (T : Timers) : nat := size (timersOf r T).

(** ** Configuration *)

Record Options := mkOptions {
  autoAdvance : bool;
  autoAdvanceTime : Z;
  enableKeyboard : bool;
  enableTouch : bool;
  loop : bool;
  startSlide : Z
}.

(** The [options] argument of the constructor: any subset of the keys. *)
Record Overrides := mkOverrides {
  o_autoAdvance : option bool;
  o_autoAdvanceTime : option Z;
  o_enableKeyboard : option bool;
  o_enableTouch : option bool;
  o_loop : option bool;
  o_startSlide : option Z
}.

Definition noOverrides : Overrides :=
  mkOverrides None None None None None None.

(** [{ autoAdvance: true, ..., startSlide: 0, ...options }] *)
Definition mergeOptions (o : Overrides) : Options :=
  mkOptions (default true (o_autoAdvance o))
            (default 6000 (o_autoAdvanceTime o))
            (default true (o_enableKeyboard o))
            (default true (o_enableTouch o))
            (default true (o_loop o))
            (default 0 (o_startSlide o)).

(** ** The class *)

Module Carousel.

Record t := mk {
  container : Container;
  options : Options;
  currentSlideIndex : Z;
  slides : list Element;
  indicators : list Element;
  totalSlides : Z;
  autoAdvanceInterval : option positive;   (* null or a timer handle *)
  touchStartX : Z;
  touchEndX : Z
}.

Definition set_currentSlideIndex (i : Z) (c : t) : t :=
  mk (container c) (options c) i (slides c) (indicators c) (totalSlides c)
     (autoAdvanceInterval c) (touchStartX c) (touchEndX c).

Definition set_nodes (s ind : list Element) (c : t) : t :=
  mk (container c) (options c) (currentSlideIndex c) s ind (totalSlides c)
     (autoAdvanceInterval c) (touchStartX c) (touchEndX c).

Definition set_autoAdvanceInterval (h : option positive) (c : t) : t :=
  mk (container c) (options c) (currentSlideIndex c) (slides c) (indicators c)
     (totalSlides c) h (touchStartX c) (touchEndX c).

Definition set_touchStartX (x : Z) (c : t) : t :=
  mk (container c) (options c) (currentSlideIndex c) (slides c) (indicators c)
     (totalSlides c) (autoAdvanceInterval c) x (touchEndX c).

Definition set_touchEndX (x : Z) (c : t) : t :=
  mk (container c) (options c) (currentSlideIndex c) (slides c) (indicators c)
     (totalSlides c) (autoAdvanceInterval c) (touchStartX c) x.

(** Instance fields together with the page's timer table. *)
Definition St : Type := t * Timers.

(** [showSlide(index)]: strip [active] everywhere, then mark the slide and
    the indicator at [index] when such an element exists. *)
Definition showSlide (index : Z) (c : t) : t :=
  let s := classList_remove_active <$> slides c in
  let ind := classList_remove_active <$> indicators c in
  let s :=
    match nodeAt s index with
    | Some _ => alter classList_add_active (Z.to_nat index) s
    | None => s
    end in
  let ind :=
    match nodeAt ind index with
    | Some _ => alter classList_add_active (Z.to_nat index) ind
    | None => ind
    end in
  set_nodes s ind c.

Section Methods.

(** The object the methods are invoked on. *)
Variable this : ref.

Definition stopAutoAdvance (st : St) : St :=
  let (c, T) := st in
  match autoAdvanceInterval c with
  | Some h => (set_autoAdvanceInterval None c, clearInterval h T)
  | None => (c, T)
  end.

Definition startAutoAdvance (st : St) : St :=
  let (c, T) := stopAutoAdvance st in
  let (h, T) := setInterval this (autoAdvanceTime (options c)) T in
  (set_autoAdvanceInterval (Some h) c, T).

Definition changeSlide (direction : Z) (st : St) : St :=
  let (c, T) := st in
  let i := currentSlideIndex c + direction in
  let i :=
    if loop (options c) then
      if i >=? totalSlides c then 0
      else if i <? 0 then totalSlides c - 1
      else i
    else Z.max 0 (Z.min i (totalSlides c - 1)) in
  let c := showSlide i (set_currentSlideIndex i c) in
  if autoAdvance (options c)
  then startAutoAdvance (stopAutoAdvance (c, T))
  else (c, T).

Definition goToSlide (index : Z) (st : St) : St :=
  let (c, T) := st in
  if (index >=? 0) && (index <? totalSlides c) then
    let c := showSlide index (set_currentSlideIndex index c) in
    if autoAdvance (options c)
    then startAutoAdvance (stopAutoAdvance (c, T))
    else (c, T)
  else (c, T).

Definition handleSwipe (st : St) : St :=
  let swipeThreshold := 50 in
  let diff := touchStartX st.1 - touchEndX st.1 in
  if Z.abs diff >? swipeThreshold then
    if diff >? 0 then changeSlide 1 st else changeSlide (-1) st
  else st.

(** Public API *)
Definition next (st : St) : St := changeSlide 1 st.
Definition prev (st : St) : St := changeSlide (-1) st.
Definition goTo (index : Z) (st : St) : St := goToSlide index st.
Definition destroy (st : St) : St := stopAutoAdvance st.

(** [init()]: the listeners it attaches are the cases of [dispatch]
    below; on the fields it renders once and starts the timer. *)
Definition init (st : St) : St :=
  let (c, T) := st in
  let c := showSlide (currentSlideIndex c) c in
  if autoAdvance (options c) then startAutoAdvance (c, T) else (c, T).

(** Outcome of [new Carousel(selector, options)]. *)
Inductive Construction :=
| ContainerNotFound             (* first early return: nothing is set up *)
| NoSlidesFound (c : t)         (* second early return: init() not run *)
| Initialised (c : t).

(** The constructor; [found] is the result of [document.querySelector]. *)
Definition new (found : option Container) (overrides : Overrides)
    (T : Timers) : Construction * Timers :=
  match found with
  | None => (ContainerNotFound, T)
  | Some cont =>
      let opts := mergeOptions overrides in
      let c :=
        mk cont opts (startSlide opts) (slideNodes cont) (indicatorNodes cont)
           (Z.of_nat (length (slideNodes cont))) None 0 0 in
      if totalSlides c =? 0 then (NoSlidesFound c, T)
      else let (c, T) := init (c, T) in (Initialised c, T)
  end.

(** What can happen to an initialised instance: the DOM events its
    listeners are attached to, a tick of an interval timer, and calls of
    the public API. *)
Inductive Event :=
| ClickPrev
| ClickNext
| ClickIndicator (index : nat)
| KeyDown (key : string)
| MouseEnter
| MouseLeave
| TouchStart (screenX : Z)
| TouchEnd (screenX : Z)
| TimerFires (h : positive)
| CallNext
| CallPrev
| CallGoTo (index : Z)
| CallDestroy.

Definition dispatch (e : Event) (st : St) : St :=
  let c := st.1 in
  match e with
  | ClickPrev =>
      if prevBtn (container c) then changeSlide (-1) st else st
  | ClickNext =>
      if nextBtn (container c) then changeSlide 1 st else st
  | ClickIndicator index =>
      match indicators c !! index with
      | Some _ => goToSlide (Z.of_nat index) st
      | None => st
      end
  | KeyDown key =>
      if enableKeyboard (options c) then
        if String.eqb key "ArrowLeft" then changeSlide (-1) st
        else if String.eqb key "ArrowRight" then changeSlide 1 st
        else st
      else st
  | MouseEnter => stopAutoAdvance st
  | MouseLeave =>
      if autoAdvance (options c) then startAutoAdvance st else st
  | TouchStart x =>
      if enableTouch (options c) then (set_touchStartX x c, st.2) else st
  | TouchEnd x =>
      if enableTouch (options c)
      then handleSwipe (set_touchEndX x c, st.2)
      else st
  | TimerFires h =>
      match live st.2 !! h with
      | Some iv =>
          if decide (callbackThis iv = this) then changeSlide 1 st else st
      | None => st
      end
  | CallNext => next st
  | CallPrev => prev st
  | CallGoTo index => goTo index st
  | CallDestroy => destroy st
  end.

(** Events are handled one after the other. *)
Definition run (es : list Event) (st : St) : St :=
  foldl (λ s e, dispatch e s) st es.

(** The states after each of a sequence of relative transitions. *)
Fixpoint changeSlides (directions : list Z) (st : St) : list St :=
  match directions with
  | [] => []
  | d :: ds => let st' := changeSlide d st in st' :: changeSlides ds st'
  end.

End Methods.

End Carousel.

(** ** Registry and legacy functions *)

(** The page: the carousel objects by identity, the timer table and the
    [globalCarousels] map from identifier to object. *)
Record Page := mkPage {
  objects : gmap ref Carousel.t;
  timers : Timers;
  globalCarousels : gmap string ref
}.

(** Call a method on the object [r] refers to.  A registry entry always
    refers to an object; for a reference without one the page is left as
    it is. *)
Definition invoke (r : ref) (m : ref → Carousel.St → Carousel.St)
    (W : Page) : Page :=
  match objects W !! r with
  | Some c =>
      let (c', T') := m r (c, timers W) in
      mkPage (<[r := c']> (objects W)) T' (globalCarousels W)
  | None => W
  end.

(** The two free functions of the source; they share their names with
    methods of the class, hence the module. *)
Module Legacy.

(** [carouselId = 'default'] *)
Definition idOrDefault (carouselId : option string) : string :=
  default "default"%string carouselId.

Definition changeSlide (direction : Z) (carouselId : option string)
    (W : Page) : Page :=
  match globalCarousels W !! idOrDefault carouselId with
  | Some r => invoke r (λ this, Carousel.changeSlide this direction) W
  | None => W
  end.

Definition currentSlide (index : Z) (carouselId : option string)
    (W : Page) : Page :=
  match globalCarousels W !! idOrDefault carouselId with
  | Some r => invoke r (λ this, Carousel.goToSlide this (index - 1)) W
  | None => W
  end.

End Legacy.

(** ** Vocabulary of the properties *)

Import Carousel.

(** [options], [totalSlides] and [container] are assigned in the
    constructor only. *)
Definition sameConfig (c c' : Carousel.t) : Prop :=
  options c' = options c ∧ totalSlides c' = totalSlides c
  ∧ container c' = container c.

(** The index a relative transition arrives at, as [changeSlide] computes
    it from the old index. *)
Definition boundary (lp : bool) (total i : Z) : Z :=
  if lp then
    if i >=? total then 0 else if i <? 0 then total - 1 else i
  else Z.max 0 (Z.min i (total - 1)).

(** [totalSlides] is the length of the slide list, as the constructor
    sets it. *)
Definition counted (c : Carousel.t) : Prop :=
  totalSlides c = Z.of_nat (length (slides c)).

(** Every live timer of the instance is the one whose handle the instance
    stores. *)
Definition tracked (this : ref) (st : St) : Prop :=
  ∀ h iv, live st.2 !! h = Some iv → callbackThis iv = this →
          autoAdvanceInterval st.1 = Some h.

(** A stored handle was handed out by [setInterval] earlier. *)
Definition allocated (st : St) : Prop :=
  ∀ h, autoAdvanceInterval st.1 = Some h → (h < nextHandle st.2)%positive.

Definition timerInv (this : ref) (st : St) : Prop :=
  tracked this st ∧ allocated st.

(** ** A three-slide page used to instantiate the properties *)

Definition demoContainer : Container :=
  mkContainer
    [mkElement 0 true; mkElement 1 false; mkElement 2 false]
    [mkElement 3 true; mkElement 4 false; mkElement 5 false]
    true true.

Definition noTimers : Timers := mkTimers ∅ 1%positive.

Definition demoOverrides (auto lp : bool) (start : Z) : Overrides :=
  mkOverrides (Some auto) None None None (Some lp) (Some start).

(** The fields as the constructor leaves them before [init()]. *)
Definition demoFields (auto lp : bool) (start : Z) : Carousel.t :=
  Carousel.mk demoContainer (mergeOptions (demoOverrides auto lp start)) start
    (slideNodes demoContainer) (indicatorNodes demoContainer) 3 None 0 0.

(** The instance [new Carousel(...)] builds on that page, as object 0. *)
Definition demo (auto lp : bool) (start : Z) : St :=
  init 0%nat (demoFields auto lp start, noTimers).

(** ** Vocabulary of the further properties *)

(** What the page shows of an instance: configuration, index and the two
    element lists.  The timer handle and the touch coordinates are not
    part of it. *)
Definition sameView (c c' : Carousel.t) : Prop :=
  sameConfig c c' ∧ currentSlideIndex c' = currentSlideIndex c
  ∧ slides c' = slides c ∧ indicators c' = indicators c.

(** The elements are marked as [showSlide(currentSlideIndex)] marks them. *)
Definition synced (c : Carousel.t) : Prop :=
  slides c = slides (showSlide (currentSlideIndex c) c)
  ∧ indicators c = indicators (showSlide (currentSlideIndex c) c).

(** The index points at a slide. *)
Definition inRange (c : Carousel.t) : Prop :=
  0 ≤ currentSlideIndex c < totalSlides c.

(** [setInterval] has not handed out a handle of the table twice: every
    live handle is below the next one. *)
Definition fresh (T : Timers) : Prop :=
  map_Forall (λ h _, (h < nextHandle T)%positive) (live T).

(** The stored handle is live and its callback is the instance's own. *)
Definition storedLive (this : ref) (st : St) : Prop :=
  ∀ h, autoAdvanceInterval st.1 = Some h →
       ∃ iv, live st.2 !! h = Some iv ∧ callbackThis iv = this.

(** The timers of the other objects of the page that were live in [T0]
    are live in [T], unchanged. *)
Definition othersKept (this : ref) (T0 T : Timers) : Prop :=
  ∀ h iv, live T0 !! h = Some iv → callbackThis iv ≠ this →
          live T !! h = Some iv.

(** A page with a second object: timer 1 belongs to object 7. *)
Definition busyTimers : Timers :=
  mkTimers {[ 1%positive := mkInterval 7%nat 1000 ]} 2%positive.

(** * Properties *)


(** ** Fields no method writes *)

Lemma sameConfig_refl c : sameConfig c c.
Proof. by repeat split. Qed.

Lemma sameConfig_trans c1 c2 c3 :
  sameConfig c1 c2 → sameConfig c2 c3 → sameConfig c1 c3.
Proof. intros (?&?&?) (?&?&?). repeat split; congruence. Qed.

Lemma stopAutoAdvance_config st : sameConfig st.1 (stopAutoAdvance st).1.
Proof.
  destruct st as [c T]. unfold stopAutoAdvance.
  destruct (autoAdvanceInterval c); by repeat split.
Qed.

Lemma startAutoAdvance_config this st :
  sameConfig st.1 (startAutoAdvance this st).1.
Proof.
  destruct st as [c T]. unfold startAutoAdvance, stopAutoAdvance.
  destruct (autoAdvanceInterval c); by repeat split.
Qed.

(** The timer reset at the end of both transitions leaves every field but
    the handle alone. *)
Lemma restart_fields this c T :
  let c' := (startAutoAdvance this (stopAutoAdvance (c, T))).1 in
  sameConfig c c' ∧ currentSlideIndex c' = currentSlideIndex c
  ∧ slides c' = slides c ∧ indicators c' = indicators c
  ∧ touchStartX c' = touchStartX c ∧ touchEndX c' = touchEndX c.
Proof.
  unfold startAutoAdvance, stopAutoAdvance, sameConfig.
  destruct c as [? ? ? ? ? ? [h|] ? ?]; simpl; by repeat split.
Qed.

Lemma changeSlide_index this d st :
  currentSlideIndex (changeSlide this d st).1 =
  boundary (loop (options st.1)) (totalSlides st.1)
           (currentSlideIndex st.1 + d).
Proof.
  destruct st as [c T]. unfold changeSlide. cbn [fst snd].
  set (i := if loop (options c) then _ else _).
  change (options (showSlide i (set_currentSlideIndex i c))) with (options c).
  destruct (autoAdvance (options c)); [|reflexivity].
  destruct (restart_fields this (showSlide i (set_currentSlideIndex i c)) T)
    as (_ & -> & _).
  reflexivity.
Qed.

Lemma changeSlide_config this d st : sameConfig st.1 (changeSlide this d st).1.
Proof.
  destruct st as [c T]. unfold changeSlide. cbn [fst snd].
  set (i := if loop (options c) then _ else _).
  change (options (showSlide i (set_currentSlideIndex i c))) with (options c).
  destruct (autoAdvance (options c)); [|by repeat split].
  destruct (restart_fields this (showSlide i (set_currentSlideIndex i c)) T)
    as (H & _).
  exact H.
Qed.

Lemma boundary_in_range lp total i :
  1 ≤ total → 0 ≤ boundary lp total i < total.
Proof.
  intros Ht. unfold boundary. destruct lp.
  - destruct (Z.geb_spec i total); [lia|].
    destruct (Z.ltb_spec i 0); lia.
  - lia.
Qed.

(** One relative transition lands inside the slide range, whatever the
    direction and the index before. *)
Lemma changeSlide_in_range this d st :
  1 ≤ totalSlides st.1 →
  0 ≤ currentSlideIndex (changeSlide this d st).1 < totalSlides st.1.
Proof. intros. rewrite changeSlide_index. by apply boundary_in_range. Qed.

Lemma changeSlides_length this ds : ∀ st,
  length (changeSlides this ds st) = length ds.
Proof. induction ds as [|d ds IH]; intros st; simpl; [done|]. by rewrite IH. Qed.

Lemma changeSlides_in_range this ds : ∀ st,
  1 ≤ totalSlides st.1 →
  Forall (λ st' : St, 0 ≤ currentSlideIndex st'.1 < totalSlides st.1)
         (changeSlides this ds st).
Proof.
  induction ds as [|d ds IH]; intros st Ht; simpl; [constructor|].
  destruct (changeSlide_config this d st) as (_ & Htot & _).
  constructor.
  - by apply changeSlide_in_range.
  - rewrite <- Htot. apply IH. lia.
Qed.
Lemma nat_iter_index_fixed this d (st : St) n :
  boundary (loop (options st.1)) (totalSlides st.1)
           (currentSlideIndex st.1 + d) = currentSlideIndex st.1 →
  currentSlideIndex (Nat.iter n (changeSlide this d) st).1
  = currentSlideIndex st.1
  ∧ sameConfig st.1 (Nat.iter n (changeSlide this d) st).1.
Proof.
  intros Hfix. induction n as [|n [IHi IHc]]; simpl.
  - split; [done | apply sameConfig_refl].
  - split.
    + rewrite changeSlide_index.
      destruct IHc as (-> & -> & _). by rewrite IHi.
    + eapply sameConfig_trans; [exact IHc | apply changeSlide_config].
Qed.

(** C1. In loop mode a sequence of unit relative transitions keeps
    [currentSlideIndex] inside [0, totalSlides - 1] after every step; an
    index that reaches [totalSlides] wraps to 0 and an index that drops
    below 0 wraps to [totalSlides - 1]. *)
Theorem loop_transitions_stay_in_range this (directions : list Z) (st : St) :
  loop (options st.1) = true →
  0 < totalSlides st.1 →
  0 ≤ currentSlideIndex st.1 < totalSlides st.1 →
  Forall (λ d, d = 1 ∨ d = -1) directions →
  length (changeSlides this directions st) = length directions
  ∧ Forall (λ st' : St, 0 ≤ currentSlideIndex st'.1 < totalSlides st.1)
           (changeSlides this directions st)
  ∧ (∀ d, totalSlides st.1 ≤ currentSlideIndex st.1 + d →
          currentSlideIndex (changeSlide this d st).1 = 0)
  ∧ (∀ d, currentSlideIndex st.1 + d < 0 →
          currentSlideIndex (changeSlide this d st).1 = totalSlides st.1 - 1).
Proof.
  intros Hloop Htot _ _. repeat split.
  - apply changeSlides_length.
  - apply changeSlides_in_range. lia.
  - intros d Hd. rewrite changeSlide_index, Hloop. unfold boundary.
    destruct (Z.geb_spec (currentSlideIndex st.1 + d) (totalSlides st.1)); lia.
  - intros d Hd. rewrite changeSlide_index, Hloop. unfold boundary.
    destruct (Z.geb_spec (currentSlideIndex st.1 + d) (totalSlides st.1));
      [lia|].
    destruct (Z.ltb_spec (currentSlideIndex st.1 + d) 0); lia.
Qed.

Lemma loop_transitions_stay_in_range_witness :
  currentSlideIndex <$> (fst <$> changeSlides 0%nat [1; 1; 1; -1; -1; -1; -1]
                                              (demo true true 0))
  = [1; 2; 0; 2; 1; 0; 2]
  ∧ Forall (λ st' : St, 0 ≤ currentSlideIndex st'.1 < 3)
           (changeSlides 0%nat [1; 1; 1; -1; -1; -1; -1] (demo true true 0)).
Proof.
  split; [vm_compute; reflexivity|].
  refine (proj1 (proj2 (loop_transitions_stay_in_range 0%nat
            [1; 1; 1; -1; -1; -1; -1] (demo true true 0) _ _ _ _))).
  - reflexivity.
  - vm_compute; reflexivity.
  - vm_compute; split; [discriminate | reflexivity].
  - repeat (constructor; [lia|]). constructor.
Defined.

(** C2. In clamp mode repeated backward transitions from index 0 stay at
    0, repeated forward transitions from the last index stay there, and
    every transition saturates the index to [0, totalSlides - 1]. *)
Theorem clamp_transitions_saturate this (st : St) :
  loop (options st.1) = false →
  0 < totalSlides st.1 →
  (currentSlideIndex st.1 = 0 →
   ∀ n, currentSlideIndex (Nat.iter n (changeSlide this (-1)) st).1 = 0)
  ∧ (currentSlideIndex st.1 = totalSlides st.1 - 1 →
     ∀ n, currentSlideIndex (Nat.iter n (changeSlide this 1) st).1
          = totalSlides st.1 - 1)
  ∧ (∀ d, currentSlideIndex (changeSlide this d st).1
          = Z.max 0 (Z.min (currentSlideIndex st.1 + d) (totalSlides st.1 - 1))
          ∧ 0 ≤ currentSlideIndex (changeSlide this d st).1 < totalSlides st.1).
Proof.
  intros Hclamp Htot. repeat split.
  - intros H0 n.
    destruct (nat_iter_index_fixed this (-1) st n) as [-> _]; [|done].
    rewrite Hclamp. unfold boundary. lia.
  - intros Hlast n.
    destruct (nat_iter_index_fixed this 1 st n) as [-> _]; [|done].
    rewrite Hclamp. unfold boundary. lia.
  - rewrite changeSlide_index, Hclamp. reflexivity.
  - apply changeSlide_in_range. lia.
  - apply changeSlide_in_range. lia.
Qed.

Lemma clamp_transitions_saturate_witness :
  currentSlideIndex (Nat.iter 4 (changeSlide 0%nat (-1)) (demo true false 0)).1
  = 0
  ∧ currentSlideIndex (changeSlide 0%nat 1 (demo true false 2)).1 = 2.
Proof.
  split.
  - refine (proj1 (clamp_transitions_saturate 0%nat (demo true false 0) _ _)
                  _ 4%nat); [reflexivity | vm_compute; reflexivity | reflexivity].
  - destruct (clamp_transitions_saturate 0%nat (demo true false 2))
      as (_ & _ & H); [reflexivity | vm_compute; reflexivity |].
    destruct (H 1) as [-> _]. reflexivity.
Defined.

(** C10. One call of [changeSlide] puts [currentSlideIndex] inside
    [0, totalSlides - 1], for every integer direction and every integer
    index before the call, in loop mode and in clamp mode. *)
Theorem changeSlide_restores_bounds this (direction : Z) (st : St) :
  1 ≤ totalSlides st.1 →
  0 ≤ currentSlideIndex (changeSlide this direction st).1 < totalSlides st.1.
Proof. apply changeSlide_in_range. Qed.

Lemma changeSlide_restores_bounds_witness :
  0 ≤ currentSlideIndex (changeSlide 0%nat 7 (demo false true (-40))).1 < 3
  ∧ 0 ≤ currentSlideIndex (changeSlide 0%nat (-2) (demo true false 11)).1 < 3.
Proof.
  split.
  - apply (changeSlide_restores_bounds 0%nat 7 (demo false true (-40))).
    vm_compute; discriminate.
  - apply (changeSlide_restores_bounds 0%nat (-2) (demo true false 11)).
    vm_compute; discriminate.
Defined.

(** C8. With three slides, loop mode and index 0, three calls of [next()]
    give the indices 1, 2, 0. *)
Theorem three_next_calls_wrap this (st : St) :
  totalSlides st.1 = 3 →
  loop (options st.1) = true →
  currentSlideIndex st.1 = 0 →
  currentSlideIndex <$>
    (fst <$> [next this st; next this (next this st);
              next this (next this (next this st))])
  = [1; 2; 0].
Proof.
  intros Htot Hloop H0. unfold next. cbn [fmap list_fmap].
  pose proof (changeSlide_config this 1 st) as (Ho1 & Ht1 & _).
  pose proof (changeSlide_config this 1 (changeSlide this 1 st)) as (Ho2 & Ht2 & _).
  rewrite !changeSlide_index.
  rewrite Ho2, Ht2, Ho1, Ht1, Hloop, Htot, H0.
  reflexivity.
Qed.

Lemma three_next_calls_wrap_witness :
  currentSlideIndex <$>
    (fst <$> [next 0%nat (demo true true 0);
              next 0%nat (next 0%nat (demo true true 0));
              next 0%nat (next 0%nat (next 0%nat (demo true true 0)))])
  = [1; 2; 0].
Proof.
  apply (three_next_calls_wrap 0%nat (demo true true 0)); reflexivity.
Defined.

(** ** Absolute transition *)

Lemma goToSlide_out_of_range this index st :
  index < 0 ∨ totalSlides st.1 ≤ index → goToSlide this index st = st.
Proof.
  destruct st as [c T]. cbn [fst]. intros H. unfold goToSlide.
  destruct (Z.geb_spec index 0), (Z.ltb_spec index (totalSlides c));
    simpl; first [reflexivity | lia].
Qed.

Lemma goToSlide_in_range this index c T :
  0 ≤ index < totalSlides c →
  goToSlide this index (c, T) =
  let c' := showSlide index (set_currentSlideIndex index c) in
  if autoAdvance (options c)
  then startAutoAdvance this (stopAutoAdvance (c', T))
  else (c', T).
Proof.
  intros H. unfold goToSlide.
  destruct (Z.geb_spec index 0), (Z.ltb_spec index (totalSlides c));
    simpl; first [reflexivity | lia].
Qed.

Lemma goToSlide_renders this (i : Z) (st : St) :
  0 ≤ i < totalSlides st.1 →
  currentSlideIndex (goToSlide this i st).1 = i
  ∧ slides (goToSlide this i st).1 = slides (showSlide i st.1)
  ∧ indicators (goToSlide this i st).1 = indicators (showSlide i st.1).
Proof.
  destruct st as [c T]. cbn [fst]. intros H.
  rewrite goToSlide_in_range by done. cbn zeta.
  destruct (autoAdvance (options c)); [|by repeat split].
  destruct (restart_fields this (showSlide i (set_currentSlideIndex i c)) T)
    as (_ & -> & -> & -> & _).
  by repeat split.
Qed.

(** C3. [goToSlide(i)] with [i] outside [0, totalSlides) returns the state
    it was given, fields and timer table alike; with [i] inside the range
    it stores [i] in [currentSlideIndex] and the slides and indicators are
    those [showSlide(i)] renders. *)
Theorem goToSlide_range_guard this (i : Z) (st : St) :
  (i < 0 ∨ totalSlides st.1 ≤ i → goToSlide this i st = st)
  ∧ (0 ≤ i < totalSlides st.1 →
     currentSlideIndex (goToSlide this i st).1 = i
     ∧ slides (goToSlide this i st).1 = slides (showSlide i st.1)
     ∧ indicators (goToSlide this i st).1 = indicators (showSlide i st.1)).
Proof.
  split; [apply goToSlide_out_of_range | apply goToSlide_renders].
Qed.

Lemma goToSlide_range_guard_witness :
  goToSlide 0%nat 3 (demo true true 0) = demo true true 0
  ∧ goToSlide 0%nat (-1) (demo true true 0) = demo true true 0
  ∧ currentSlideIndex (goToSlide 0%nat 2 (demo true true 0)).1 = 2.
Proof.
  destruct (goToSlide_range_guard 0%nat 3 (demo true true 0)) as [H3 _].
  destruct (goToSlide_range_guard 0%nat (-1) (demo true true 0)) as [Hm _].
  destruct (goToSlide_range_guard 0%nat 2 (demo true true 0)) as [_ H2].
  split; [apply H3; right; vm_compute; discriminate|].
  split; [apply Hm; left; reflexivity|].
  apply H2. vm_compute. split; [discriminate | reflexivity].
Defined.

(** ** Swipe gestures *)

(** C6. [handleSwipe] computes [diff = touchStartX - touchEndX]; for
    [|diff| <= 50] the state is returned as it is, for [diff > 50] the
    result is that of one [changeSlide(1)], for [diff < -50] that of one
    [changeSlide(-1)]. *)
Theorem handleSwipe_threshold this (st : St) :
  let diff := touchStartX st.1 - touchEndX st.1 in
  (Z.abs diff ≤ 50 → handleSwipe this st = st)
  ∧ (50 < diff → handleSwipe this st = changeSlide this 1 st)
  ∧ (diff < -50 → handleSwipe this st = changeSlide this (-1) st).
Proof.
  intros diff. unfold handleSwipe. fold diff.
  destruct (Z.gtb_spec (Z.abs diff) 50), (Z.gtb_spec diff 0);
    repeat split; intros; first [reflexivity | lia].
Qed.

(** A whole gesture: [touchstart] at [xs], then [touchend] at [xe]. *)
Lemma gesture_threshold this (xs xe : Z) (st : St) :
  enableTouch (options st.1) = true →
  let recorded : St := (set_touchEndX xe (set_touchStartX xs st.1), st.2) in
  dispatch this (TouchEnd xe) (dispatch this (TouchStart xs) st) =
  if Z.abs (xs - xe) <=? 50 then recorded
  else if 0 <? xs - xe then changeSlide this 1 recorded
  else changeSlide this (-1) recorded.
Proof.
  intros Ht recorded. destruct st as [c T]. cbn [fst snd] in *.
  unfold dispatch. cbn [fst snd]. rewrite Ht. cbn [fst snd options set_touchStartX].
  rewrite Ht. fold recorded. unfold handleSwipe.
  change (touchStartX recorded.1 - touchEndX recorded.1) with (xs - xe).
  destruct (Z.leb_spec (Z.abs (xs - xe)) 50), (Z.gtb_spec (Z.abs (xs - xe)) 50);
    try lia; [reflexivity|].
  destruct (Z.ltb_spec 0 (xs - xe)), (Z.gtb_spec (xs - xe) 0);
    first [reflexivity | lia].
Qed.

Lemma handleSwipe_threshold_witness :
  let swiped (xs xe : Z) : St :=
    dispatch 0%nat (TouchEnd xe) (dispatch 0%nat (TouchStart xs) (demo true true 0)) in
  let recorded (xs xe : Z) : St :=
    (set_touchEndX xe (set_touchStartX xs (demo true true 0).1),
     (demo true true 0).2) in
  swiped 149 100 = recorded 149 100
  ∧ swiped 151 100 = changeSlide 0%nat 1 (recorded 151 100)
  ∧ swiped 100 151 = changeSlide 0%nat (-1) (recorded 100 151).
Proof.
  intros swiped recorded.
  destruct (handleSwipe_threshold 0%nat (recorded 149 100)) as (H49 & _ & _).
  destruct (handleSwipe_threshold 0%nat (recorded 151 100)) as (_ & H51 & _).
  destruct (handleSwipe_threshold 0%nat (recorded 100 151)) as (_ & _ & Hm51).
  split; [apply H49; vm_compute; discriminate|].
  split; [apply H51; reflexivity | apply Hm51; reflexivity].
Defined.

(** ** Registry and legacy functions *)

Lemma invoke_lookup r m W c :
  objects W !! r = Some c →
  let W' := invoke r m W in
  objects W' !! r = Some (m r (c, timers W)).1
  ∧ timers W' = (m r (c, timers W)).2
  ∧ globalCarousels W' = globalCarousels W
  ∧ (∀ r', r' ≠ r → objects W' !! r' = objects W !! r').
Proof.
  intros Hc. unfold invoke. rewrite Hc.
  destruct (m r (c, timers W)) as [c' T']. cbn.
  repeat split.
  - apply lookup_insert_eq.
  - intros r' Hne. by apply lookup_insert_ne.
Qed.

(** C7. [currentSlide(i, id)] with a registered [id] calls [goToSlide] of
    the registered object with [i - 1] and touches no other object; with an
    [id] that is not registered, [currentSlide] and the legacy
    [changeSlide] return the page unchanged. *)
Theorem legacy_functions_by_id (i d : Z) (carouselId : option string)
    (W : Page) :
  (∀ r c, globalCarousels W !! Legacy.idOrDefault carouselId = Some r →
          objects W !! r = Some c →
          let res := goToSlide r (i - 1) (c, timers W) in
          let W' := Legacy.currentSlide i carouselId W in
          objects W' !! r = Some res.1
          ∧ timers W' = res.2
          ∧ globalCarousels W' = globalCarousels W
          ∧ (∀ r', r' ≠ r → objects W' !! r' = objects W !! r')
          ∧ (1 ≤ i ≤ totalSlides c → currentSlideIndex res.1 = i - 1))
  ∧ (globalCarousels W !! Legacy.idOrDefault carouselId = None →
     Legacy.currentSlide i carouselId W = W ∧ Legacy.changeSlide d carouselId W = W).
Proof.
  split.
  - intros r c Hr Hc res W'.
    destruct (invoke_lookup r (λ this, goToSlide this (i - 1)) W c Hc)
      as (H1 & H2 & H3 & H4).
    subst W'. unfold Legacy.currentSlide. rewrite Hr.
    repeat split; try assumption.
    intros Hi. subst res.
    apply (goToSlide_renders r (i - 1) (c, timers W)). cbn [fst]. lia.
  - intros Hmiss. unfold Legacy.currentSlide, Legacy.changeSlide. by rewrite Hmiss.
Qed.

Lemma legacy_functions_by_id_witness :
  let W := mkPage {[ 0%nat := (demo true true 0).1 ]} (demo true true 0).2
                  {[ "default"%string := 0%nat ]} in
  (Carousel.currentSlideIndex <$> objects (Legacy.currentSlide 3 None W) !! 0%nat)
  = Some 2
  ∧ Legacy.currentSlide 3 (Some "gallery"%string) W = W
  ∧ Legacy.changeSlide 1 (Some "gallery"%string) W = W.
Proof.
  intros W.
  destruct (legacy_functions_by_id 3 1 None W) as [Hhit _].
  destruct (legacy_functions_by_id 3 1 (Some "gallery"%string) W) as [_ Hmiss].
  split.
  - destruct (Hhit 0%nat (demo true true 0).1) as (-> & _ & _ & _ & Hidx);
      [reflexivity | reflexivity |].
    cbn [fmap option_fmap option_map]. rewrite Hidx; [reflexivity|].
    vm_compute. split; discriminate.
  - apply Hmiss. reflexivity.
Defined.

(** ** Rendering *)

Lemma countActive_cleared (l : list Element) :
  countActive (classList_remove_active <$> l) = 0%nat.
Proof. induction l as [|e l IH]; simpl; [done | exact IH]. Qed.

Lemma countActive_mark (l : list Element) : ∀ i : nat,
  countActive l = 0%nat → (i < length l)%nat →
  countActive (alter classList_add_active i l) = 1%nat.
Proof.
  induction l as [|e l IH]; intros i H0 Hi; simpl in *; [lia|].
  destruct (active e) eqn:He; [discriminate|]. simpl in H0.
  destruct i as [|i]; simpl.
  - by rewrite H0.
  - rewrite He. simpl. apply IH; [done | lia].
Qed.

Lemma nodeAt_Some (l : list Element) (index : Z) :
  0 ≤ index < Z.of_nat (length l) → is_Some (nodeAt l index).
Proof.
  intros H. unfold nodeAt. destruct (Z.ltb_spec index 0); [lia|].
  apply lookup_lt_is_Some. lia.
Qed.

Lemma nodeAt_None (l : list Element) (index : Z) :
  index < 0 ∨ Z.of_nat (length l) ≤ index → nodeAt l index = None.
Proof.
  intros H. unfold nodeAt. destruct (Z.ltb_spec index 0); [done|].
  apply lookup_ge_None. lia.
Qed.

(** The two halves of [showSlide] do the same to a list of elements. *)
Lemma render_inside (l : list Element) (index : Z) :
  0 ≤ index < Z.of_nat (length l) →
  let l0 := classList_remove_active <$> l in
  let l' := match nodeAt l0 index with
            | Some _ => alter classList_add_active (Z.to_nat index) l0
            | None => l0
            end in
  countActive l' = 1%nat ∧ active <$> l' !! Z.to_nat index = Some true.
Proof.
  intros H l0 l'.
  assert (Hlen : length l0 = length l) by apply length_fmap.
  destruct (nodeAt_Some l0 index) as [e He]; [lia|].
  subst l'. rewrite He. split.
  - apply countActive_mark; [apply countActive_cleared | lia].
  - rewrite list_lookup_alter.
    destruct (lookup_lt_is_Some_2 l0 (Z.to_nat index)) as [e' ->]; [lia|].
    by rewrite decide_True.
Qed.

Lemma render_outside (l : list Element) (index : Z) :
  index < 0 ∨ Z.of_nat (length l) ≤ index →
  let l0 := classList_remove_active <$> l in
  countActive match nodeAt l0 index with
              | Some _ => alter classList_add_active (Z.to_nat index) l0
              | None => l0
              end = 0%nat.
Proof.
  intros H l0. rewrite nodeAt_None.
  - apply countActive_cleared.
  - subst l0. rewrite length_fmap. exact H.
Qed.

Lemma showSlide_lengths index c :
  length (slides (showSlide index c)) = length (slides c)
  ∧ length (indicators (showSlide index c)) = length (indicators c).
Proof.
  unfold showSlide. cbn [slides indicators set_nodes].
  split.
  - destruct (nodeAt _ _); rewrite ?length_alter; apply length_fmap.
  - destruct (nodeAt (classList_remove_active <$> indicators c) index);
      rewrite ?length_alter; apply length_fmap.
Qed.

(** C4 (amended). After [showSlide(index)]: when [index] lies in
    [0, totalSlides) exactly one slide is active, the one at [index];
    when it lies outside, no slide is active.  Exactly one indicator is
    active when [index] is inside the indicator list and none otherwise,
    so never more than one. *)
Theorem showSlide_active_counts (index : Z) (c : Carousel.t) :
  counted c →
  let c' := showSlide index c in
  (0 ≤ index < totalSlides c →
     countActive (slides c') = 1%nat
     ∧ active <$> slides c' !! Z.to_nat index = Some true)
  ∧ (index < 0 ∨ totalSlides c ≤ index → countActive (slides c') = 0%nat)
  ∧ (0 ≤ index < Z.of_nat (length (indicators c)) →
     countActive (indicators c') = 1%nat
     ∧ active <$> indicators c' !! Z.to_nat index = Some true)
  ∧ (index < 0 ∨ Z.of_nat (length (indicators c)) ≤ index →
     countActive (indicators c') = 0%nat)
  ∧ (countActive (indicators c') ≤ 1)%nat.
Proof.
  intros Hc c'. subst c'. unfold counted in Hc. unfold showSlide.
  cbn [slides indicators set_nodes]. rewrite Hc.
  pose proof (render_inside (slides c) index) as Hs1.
  pose proof (render_outside (slides c) index) as Hs0.
  pose proof (render_inside (indicators c) index) as Hi1.
  pose proof (render_outside (indicators c) index) as Hi0.
  cbn zeta in *.
  repeat split; try (intros; first [by apply Hs1 | by apply Hs0
                                   | by apply Hi1 | by apply Hi0]).
  destruct (decide (0 ≤ index < Z.of_nat (length (indicators c)))) as [Hin|Hout].
  - destruct (Hi1 Hin) as [-> _]. lia.
  - rewrite Hi0; lia.
Qed.

Lemma showSlide_active_counts_witness :
  countActive (slides (showSlide 2 (demo true true 0).1)) = 1%nat
  ∧ countActive (indicators (showSlide 2 (demo true true 0).1)) = 1%nat
  ∧ countActive (slides (showSlide (-1) (demo true true 0).1)) = 0%nat.
Proof.
  destruct (showSlide_active_counts 2 (demo true true 0).1)
    as (Hs & _ & Hi & _); [reflexivity|].
  destruct (showSlide_active_counts (-1) (demo true true 0).1)
    as (_ & Hout & _); [reflexivity|].
  split; [apply Hs; vm_compute; split; [discriminate | reflexivity]|].
  split; [apply Hi; vm_compute; split; [discriminate | reflexivity]|].
  apply Hout. left. reflexivity.
Defined.

(** C4, counterexample to the form without a range condition: on the
    three-slide instance, which has one active slide, [showSlide(5)]
    leaves no slide active. *)
Lemma showSlide_past_the_end_shows_nothing :
  counted (demo true true 0).1
  ∧ totalSlides (demo true true 0).1 = 3
  ∧ countActive (slides (demo true true 0).1) = 1%nat
  ∧ countActive (slides (showSlide 5 (demo true true 0).1)) = 0%nat
  ∧ countActive (slides (showSlide 5 (demo true true 0).1)) ≠ 1%nat.
Proof. vm_compute. repeat split; discriminate. Qed.

(** ** Construction *)

Lemma init_fields this c T :
  let c' := (init this (c, T)).1 in
  sameConfig c c' ∧ currentSlideIndex c' = currentSlideIndex c
  ∧ slides c' = slides (showSlide (currentSlideIndex c) c)
  ∧ indicators c' = indicators (showSlide (currentSlideIndex c) c).
Proof.
  unfold init. cbn zeta.
  change (options (showSlide (currentSlideIndex c) c)) with (options c).
  destruct (autoAdvance (options c)); [|by repeat split].
  unfold startAutoAdvance, stopAutoAdvance, sameConfig.
  destruct c as [? ? ? ? ? ? [h|] ? ?]; by repeat split.
Qed.

Lemma new_with_slides this cont ov T :
  slideNodes cont ≠ [] →
  let c0 := Carousel.mk cont (mergeOptions ov) (startSlide (mergeOptions ov))
              (slideNodes cont) (indicatorNodes cont)
              (Z.of_nat (length (slideNodes cont))) None 0 0 in
  new this (Some cont) ov T =
  (Initialised (init this (c0, T)).1, (init this (c0, T)).2).
Proof.
  intros Hne c0. unfold new. fold c0.
  destruct (Z.eqb_spec (totalSlides c0) 0) as [H0|_].
  - subst c0. cbn in H0. destruct (slideNodes cont); [done | discriminate].
  - by destruct (init this (c0, T)).
Qed.

(** C9 (amended). A construction that finds a container with at least one
    slide succeeds, and the instance starts with [currentSlideIndex] equal
    to the configured [startSlide] as it is; the index lies in
    [0, totalSlides - 1] exactly when [startSlide] does. *)
Theorem construction_keeps_startSlide this (cont : Container)
    (ov : Overrides) (T : Timers) :
  slideNodes cont ≠ [] →
  ∃ c T', new this (Some cont) ov T = (Initialised c, T')
    ∧ totalSlides c = Z.of_nat (length (slideNodes cont))
    ∧ 0 < totalSlides c
    ∧ currentSlideIndex c = default 0 (o_startSlide ov)
    ∧ (0 ≤ currentSlideIndex c < totalSlides c
       ↔ 0 ≤ default 0 (o_startSlide ov) < Z.of_nat (length (slideNodes cont))).
Proof.
  intros Hne. eexists _, _. split; [by apply new_with_slides|].
  match goal with |- context [init this (?c0, T)] =>
    destruct (init_fields this c0 T) as ((_ & Htot & _) & Hidx & _)
  end.
  cbn [totalSlides currentSlideIndex fst] in *.
  rewrite Htot, Hidx. cbn [startSlide mergeOptions].
  repeat split; try lia.
  destruct (slideNodes cont); [done | simpl; lia].
Qed.

Lemma construction_keeps_startSlide_witness :
  ∃ c T', new 0%nat (Some demoContainer) (demoOverrides true true 1) noTimers
          = (Initialised c, T')
    ∧ totalSlides c = 3
    ∧ 0 < totalSlides c
    ∧ currentSlideIndex c = 1
    ∧ (0 ≤ currentSlideIndex c < totalSlides c ↔ 0 ≤ 1 < 3).
Proof.
  apply (construction_keeps_startSlide 0%nat demoContainer
           (demoOverrides true true 1) noTimers).
  discriminate.
Defined.

(** C9, counterexample to a normalised start index: with three slides and
    [startSlide = 5] the construction succeeds and leaves
    [currentSlideIndex] at 5, outside [0, 2]; the initial render then
    activates no slide. *)
Lemma startSlide_5_is_not_normalised :
  (new 0%nat (Some demoContainer) (demoOverrides true true 5) noTimers).1
  = Initialised (demo true true 5).1
  ∧ totalSlides (demo true true 5).1 = 3
  ∧ currentSlideIndex (demo true true 5).1 = 5
  ∧ ¬ (0 ≤ currentSlideIndex (demo true true 5).1
       < totalSlides (demo true true 5).1)
  ∧ countActive (slides (demo true true 5).1) = 0%nat.
Proof.
  split; [reflexivity|]. split; [reflexivity|]. split; [reflexivity|].
  split; [|reflexivity].
  change (currentSlideIndex (demo true true 5).1) with 5.
  change (totalSlides (demo true true 5).1) with 3. lia.
Qed.

(** The demo instance is the one the constructor builds. *)
Lemma demo_is_constructed auto lp start :
  new 0%nat (Some demoContainer) (demoOverrides auto lp start) noTimers
  = (Initialised (demo auto lp start).1, (demo auto lp start).2).
Proof. by apply new_with_slides. Qed.

(** ** The auto-advance timer *)

(** Ownership in the timer table, without [filter]. *)
Lemma timersOf_lookup this T h iv :
  timersOf this T !! h = Some iv ↔ live T !! h = Some iv ∧ callbackThis iv = this.
Proof. unfold timersOf. by rewrite map_lookup_filter_Some. Qed.

Lemma no_timers_iff this T :
  liveTimers this T = 0%nat ↔
  ∀ h iv, live T !! h = Some iv → callbackThis iv ≠ this.
Proof.
  unfold liveTimers. rewrite map_size_empty_iff, map_empty. split.
  - intros Hnone h iv Hh Hown.
    specialize (Hnone h). by rewrite (proj2 (timersOf_lookup this T h iv)) in Hnone.
  - intros Hnone h. destruct (timersOf this T !! h) as [iv|] eqn:E; [|done].
    apply timersOf_lookup in E as [Hh Hown]. by destruct (Hnone h iv).
Qed.

Lemma tracked_at_most_one this st :
  tracked this st → (liveTimers this st.2 ≤ 1)%nat.
Proof.
  intros Htr. unfold liveTimers.
  destruct (autoAdvanceInterval st.1) as [h|] eqn:Hh.
  - rewrite <- size_dom.
    etrans; [apply (subseteq_size _ ({[h]} : gset positive))|].
    + intros k Hk. apply elem_of_dom in Hk as [iv Hk].
      apply timersOf_lookup in Hk as [Hk Hown].
      specialize (Htr k iv Hk Hown). rewrite Hh in Htr.
      apply elem_of_singleton. congruence.
    + by rewrite size_singleton.
  - replace (size (timersOf this st.2)) with 0%nat; [lia|].
    symmetry. apply no_timers_iff. intros k iv Hk Hown.
    specialize (Htr k iv Hk Hown). congruence.
Qed.

Lemma owned_timer_counts this T h iv :
  live T !! h = Some iv → callbackThis iv = this → liveTimers this T ≠ 0%nat.
Proof.
  intros Hh Hown H0. rewrite no_timers_iff in H0. by apply (H0 h iv).
Qed.

(** [startAutoAdvance] spelled out on the fields and the table. *)
Lemma startAutoAdvance_unfold this c T :
  startAutoAdvance this (c, T) =
  (set_autoAdvanceInterval (Some (nextHandle T)) c,
   mkTimers
     (<[nextHandle T := mkInterval this (autoAdvanceTime (options c))]>
        (match autoAdvanceInterval c with
         | Some h => delete h (live T)
         | None => live T
         end))
     (Pos.succ (nextHandle T))).
Proof.
  unfold startAutoAdvance, stopAutoAdvance, setInterval, clearInterval.
  by destruct c as [? ? ? ? ? ? [h|] ? ?].
Qed.

(** Stopping first changes nothing: [startAutoAdvance] stops by itself. *)
Lemma restart_eq this st :
  startAutoAdvance this (stopAutoAdvance st) = startAutoAdvance this st.
Proof.
  destruct st as [c T]. unfold startAutoAdvance, stopAutoAdvance.
  by destruct c as [? ? ? ? ? ? [h|] ? ?].
Qed.

Lemma timerInv_fields this c c' T :
  autoAdvanceInterval c' = autoAdvanceInterval c →
  timerInv this (c, T) → timerInv this (c', T).
Proof.
  intros Heq [Htr Hal]. split.
  - intros h iv Hh Hown. cbn [fst snd] in *. rewrite Heq. by apply (Htr h iv).
  - intros h Hh. cbn [fst snd] in *. rewrite Heq in Hh. by apply Hal.
Qed.

Lemma stopAutoAdvance_timerInv this st :
  timerInv this st →
  timerInv this (stopAutoAdvance st)
  ∧ liveTimers this (stopAutoAdvance st).2 = 0%nat.
Proof.
  destruct st as [c T]. intros [Htr Hal]. unfold stopAutoAdvance.
  unfold tracked, allocated in *. cbn [fst snd] in *.
  destruct (autoAdvanceInterval c) as [h|] eqn:Hh.
  - assert (Hnone : ∀ k iv, delete h (live T) !! k = Some iv →
                            callbackThis iv ≠ this).
    { intros k iv Hk Hown. apply lookup_delete_Some in Hk as [Hne Hk].
      specialize (Htr k iv Hk Hown). congruence. }
    split; [split|].
    + intros k iv Hk Hown. cbn [fst snd clearInterval live] in *.
      by destruct (Hnone k iv).
    + intros k Hk. discriminate.
    + by apply no_timers_iff.
  - assert (Hnone : ∀ k iv, live T !! k = Some iv → callbackThis iv ≠ this).
    { intros k iv Hk Hown. specialize (Htr k iv Hk Hown). congruence. }
    split; [split|].
    + intros k iv Hk Hown. cbn [fst snd] in *. by destruct (Hnone k iv).
    + intros k Hk. cbn [fst] in Hk. congruence.
    + by apply no_timers_iff.
Qed.

(** What one [startAutoAdvance] does to the timers of the instance. *)
Lemma startAutoAdvance_timer this st :
  timerInv this st →
  let st' := startAutoAdvance this st in
  timerInv this st'
  ∧ autoAdvanceInterval st'.1 = Some (nextHandle st.2)
  ∧ live st'.2 !! nextHandle st.2
    = Some (mkInterval this (autoAdvanceTime (options st.1)))
  ∧ (∀ h, autoAdvanceInterval st.1 = Some h → live st'.2 !! h = None)
  ∧ liveTimers this st'.2 = 1%nat.
Proof.
  destruct st as [c T]. intros [Htr Hal] st'. subst st'.
  rewrite startAutoAdvance_unfold.
  unfold tracked, allocated in *. cbn [fst snd] in *.
  set (m := match autoAdvanceInterval c with
            | Some h => delete h (live T) | None => live T end).
  assert (Hnone : ∀ k iv, m !! k = Some iv → callbackThis iv ≠ this).
  { intros k iv Hk Hown. subst m.
    destruct (autoAdvanceInterval c) as [h|] eqn:Hh.
    - apply lookup_delete_Some in Hk as [Hne Hk].
      specialize (Htr k iv Hk Hown). congruence.
    - specialize (Htr k iv Hk Hown). congruence. }
  assert (Hinv : timerInv this
            (set_autoAdvanceInterval (Some (nextHandle T)) c,
             mkTimers (<[nextHandle T :=
                         mkInterval this (autoAdvanceTime (options c))]> m)
                      (Pos.succ (nextHandle T)))).
  { split.
    - intros k iv Hk Hown. cbn [fst snd live] in *.
      apply lookup_insert_Some in Hk as [[<- _]|[Hne Hk]]; [done|].
      by destruct (Hnone k iv).
    - intros k Hk. cbn [fst snd nextHandle] in *.
      injection Hk as <-. lia. }
  split; [exact Hinv|]. split; [reflexivity|].
  split; [cbn [live]; apply lookup_insert_eq|].
  split.
  - intros h Hh. cbn [live]. specialize (Hal h Hh).
    rewrite lookup_insert_ne by lia. subst m. rewrite Hh.
    apply lookup_delete_eq.
  - pose proof (tracked_at_most_one this _ (proj1 Hinv)) as Hle.
    cbn [snd] in Hle.
    pose proof (owned_timer_counts this
      (mkTimers (<[nextHandle T :=
                    mkInterval this (autoAdvanceTime (options c))]> m)
                (Pos.succ (nextHandle T)))
      (nextHandle T) (mkInterval this (autoAdvanceTime (options c)))) as Hne.
    cbn [live] in Hne. rewrite lookup_insert_eq in Hne.
    specialize (Hne eq_refl eq_refl). lia.
Qed.

(** The timer reset shared by [changeSlide] and [goToSlide], applied to
    fields [c'] that carry the handle of [c]. *)
Lemma reset_timerInv this (c c' : Carousel.t) T :
  autoAdvanceInterval c' = autoAdvanceInterval c →
  timerInv this (c, T) →
  timerInv this (if autoAdvance (options c')
                 then startAutoAdvance this (stopAutoAdvance (c', T))
                 else (c', T)).
Proof.
  intros Heq Hinv. apply (timerInv_fields this c c' T Heq) in Hinv.
  destruct (autoAdvance (options c')); [|done].
  rewrite restart_eq. by apply (proj1 (startAutoAdvance_timer this _ Hinv)).
Qed.

Lemma changeSlide_timerInv this d st :
  timerInv this st → timerInv this (changeSlide this d st).
Proof.
  destruct st as [c T]. intros Hinv. unfold changeSlide.
  by apply (reset_timerInv this c).
Qed.

Lemma goToSlide_timerInv this index st :
  timerInv this st → timerInv this (goToSlide this index st).
Proof.
  destruct st as [c T]. intros Hinv. unfold goToSlide.
  destruct ((index >=? 0) && (index <? totalSlides c)); [|done].
  by apply (reset_timerInv this c).
Qed.

Lemma handleSwipe_timerInv this st :
  timerInv this st → timerInv this (handleSwipe this st).
Proof.
  intros Hinv. unfold handleSwipe.
  repeat case_match; auto using changeSlide_timerInv.
Qed.

Lemma dispatch_timerInv this e st :
  timerInv this st → timerInv this (dispatch this e st).
Proof.
  intros Hinv. destruct st as [c T].
  destruct e; unfold dispatch, next, prev, goTo, destroy; cbn [fst snd];
    repeat case_match;
    auto using changeSlide_timerInv, goToSlide_timerInv.
  - by apply (proj1 (stopAutoAdvance_timerInv this _ Hinv)).
  - by apply (proj1 (startAutoAdvance_timer this _ Hinv)).
  - apply handleSwipe_timerInv. by apply (timerInv_fields this c).
  - by apply (proj1 (stopAutoAdvance_timerInv this _ Hinv)).
Qed.

Lemma run_timerInv this es : ∀ st,
  timerInv this st → timerInv this (run this es st).
Proof.
  induction es as [|e es IH]; intros st Hinv; [done|].
  apply IH. by apply dispatch_timerInv.
Qed.

Lemma goToSlide_config this index st :
  sameConfig st.1 (goToSlide this index st).1.
Proof.
  destruct st as [c T]. unfold goToSlide. cbn [fst].
  destruct ((index >=? 0) && (index <? totalSlides c)); [|by repeat split].
  cbn zeta.
  change (options (showSlide index (set_currentSlideIndex index c)))
    with (options c).
  destruct (autoAdvance (options c)); [|by repeat split].
  destruct (restart_fields this
              (showSlide index (set_currentSlideIndex index c)) T) as [H _].
  exact H.
Qed.

Lemma dispatch_config this e st : sameConfig st.1 (dispatch this e st).1.
Proof.
  destruct st as [c T].
  destruct e; unfold dispatch, handleSwipe, next, prev, goTo, destroy;
    cbn [fst snd];
    repeat case_match;
    first [ by repeat split
          | apply (changeSlide_config this _ (_, _))
          | apply (goToSlide_config this _ (_, _))
          | apply (stopAutoAdvance_config (_, _))
          | apply (startAutoAdvance_config this (_, _))
          | exact (changeSlide_config this _ (set_touchEndX _ c, T)) ].
Qed.

Lemma run_config this es : ∀ st, sameConfig st.1 (run this es st).1.
Proof.
  induction es as [|e es IH]; intros st; [apply sameConfig_refl|].
  eapply sameConfig_trans; [apply (dispatch_config this e) | apply IH].
Qed.

(** A new object owns no timer yet; after [init()] it owns the one it
    stores, if any. *)
Lemma init_timerInv this c T :
  autoAdvanceInterval c = None →
  liveTimers this T = 0%nat →
  timerInv this (init this (c, T)).
Proof.
  intros Hnull Hnone. rewrite no_timers_iff in Hnone.
  assert (Hinv : timerInv this (showSlide (currentSlideIndex c) c, T)).
  { split.
    - intros h iv Hh Hown. by destruct (Hnone h iv).
    - intros h Hh. cbn in Hh. congruence. }
  unfold init. cbn zeta.
  destruct (autoAdvance _); [|done].
  by apply (proj1 (startAutoAdvance_timer this _ Hinv)).
Qed.

Lemma new_timerInv this found ov T c T' :
  liveTimers this T = 0%nat →
  new this found ov T = (Initialised c, T') →
  timerInv this (c, T') ∧ options c = mergeOptions ov.
Proof.
  intros Hnone Hnew. unfold new in Hnew.
  destruct found as [cont|]; [|discriminate].
  cbn zeta in Hnew. destruct (_ =? 0); [discriminate|].
  match type of Hnew with context [init this (?c0, T)] =>
    pose proof (init_timerInv this c0 T eq_refl Hnone) as Hinv;
    pose proof (init_fields this c0 T) as ((Hopt & _) & _);
    destruct (init this (c0, T)) as [c1 T1]
  end.
  injection Hnew as <- <-. split; [exact Hinv | exact Hopt].
Qed.

(** The reset at the end of a navigation call, seen from the state before
    the call: the stored timer is cancelled and a new one takes its place. *)
Lemma reset_replaces_timer this (c c' : Carousel.t) T :
  autoAdvanceInterval c' = autoAdvanceInterval c →
  timerInv this (c, T) →
  let st' := startAutoAdvance this (stopAutoAdvance (c', T)) in
  autoAdvanceInterval st'.1 = Some (nextHandle T)
  ∧ is_Some (live st'.2 !! nextHandle T)
  ∧ (∀ h, autoAdvanceInterval c = Some h → live st'.2 !! h = None)
  ∧ liveTimers this st'.2 = 1%nat.
Proof.
  intros Heq Hinv st'. subst st'. rewrite restart_eq.
  apply (timerInv_fields this c c' T Heq) in Hinv.
  destruct (startAutoAdvance_timer this (c', T) Hinv)
    as (_ & Hnew & Hlive & Hold & Hone).
  cbn [fst snd] in *. rewrite Heq in Hold.
  repeat split; try assumption. by rewrite Hlive.
Qed.

(** C5. From a successful construction on, after any sequence of events,
    the instance owns at most one live timer.  [startAutoAdvance], called
    once or twice in a row, leaves exactly one.  With [autoAdvance] on,
    [changeSlide] and [goToSlide] with a valid index cancel the stored
    timer and store a newly created one, which is then the only live timer
    of the instance. *)
Theorem at_most_one_live_timer this (found : option Container)
    (ov : Overrides) (T : Timers) (c : Carousel.t) (T' : Timers)
    (es : list Event) :
  liveTimers this T = 0%nat →
  new this found ov T = (Initialised c, T') →
  let st := run this es (c, T') in
  (liveTimers this st.2 ≤ 1)%nat
  ∧ liveTimers this (startAutoAdvance this st).2 = 1%nat
  ∧ liveTimers this (startAutoAdvance this (startAutoAdvance this st)).2
    = 1%nat
  ∧ (autoAdvance (options c) = true →
     ∀ st', (∃ d, st' = changeSlide this d st)
            ∨ (∃ i, 0 ≤ i < totalSlides c ∧ st' = goToSlide this i st) →
       autoAdvanceInterval st'.1 = Some (nextHandle st.2)
       ∧ is_Some (live st'.2 !! nextHandle st.2)
       ∧ (∀ h, autoAdvanceInterval st.1 = Some h → live st'.2 !! h = None)
       ∧ liveTimers this st'.2 = 1%nat).
Proof.
  intros Hnone Hnew st.
  destruct (new_timerInv this found ov T c T' Hnone Hnew) as [Hinv0 _].
  pose proof (run_timerInv this es (c, T') Hinv0) as Hinv. fold st in Hinv.
  pose proof (run_config this es (c, T')) as (Hopt & Htot & _).
  fold st in Hopt, Htot. cbn [fst] in Hopt, Htot.
  destruct (startAutoAdvance_timer this st Hinv) as (Hinv1 & _ & _ & _ & H1).
  destruct (startAutoAdvance_timer this _ Hinv1) as (_ & _ & _ & _ & H2).
  split; [by apply tracked_at_most_one, Hinv|].
  split; [exact H1|]. split; [exact H2|].
  intros Hauto st' Hnav. destruct st as [c1 T1] eqn:Hst.
  cbn [fst snd] in *. rewrite <- Hopt in Hauto.
  destruct Hnav as [[d ->] | (i & Hi & ->)].
  - unfold changeSlide.
    set (j := if loop (options c1) then _ else _).
    change (options (showSlide j (set_currentSlideIndex j c1)))
      with (options c1).
    rewrite Hauto. by apply (reset_replaces_timer this c1).
  - rewrite goToSlide_in_range by lia. cbn zeta. rewrite Hauto.
    by apply (reset_replaces_timer this c1).
Qed.

Lemma at_most_one_live_timer_witness :
  let st := run 0%nat [ClickNext; MouseEnter; MouseLeave; TimerFires 3;
                       KeyDown "ArrowLeft"; TouchStart 300; TouchEnd 120;
                       ClickIndicator 1; CallDestroy; CallNext]
                (demo true true 0) in
  (liveTimers 0%nat st.2 ≤ 1)%nat
  ∧ liveTimers 0%nat (startAutoAdvance 0%nat st).2 = 1%nat
  ∧ liveTimers 0%nat (changeSlide 0%nat 1 st).2 = 1%nat
  ∧ liveTimers 0%nat (goToSlide 0%nat 2 st).2 = 1%nat.
Proof.
  intros st.
  destruct (at_most_one_live_timer 0%nat (Some demoContainer)
              (demoOverrides true true 0) noTimers
              (demo true true 0).1 (demo true true 0).2
              [ClickNext; MouseEnter; MouseLeave; TimerFires 3;
               KeyDown "ArrowLeft"; TouchStart 300; TouchEnd 120;
               ClickIndicator 1; CallDestroy; CallNext])
    as (Hle & Hstart & _ & Hnav); [reflexivity | reflexivity |].
  split; [exact Hle|]. split; [exact Hstart|].
  split.
  - apply Hnav; [reflexivity|]. left. by exists 1.
  - apply Hnav; [reflexivity|]. right. exists 2.
    split; [|reflexivity]. vm_compute. split; [discriminate | reflexivity].
Defined.

(** ** The slide count of a constructed instance *)

(** [counted] is established by the constructor and kept by every method,
    so the rendering property above applies to each render of a running
    instance. *)
Lemma showSlide_counted index c : counted c → counted (showSlide index c).
Proof.
  unfold counted. intros Hc.
  destruct (showSlide_lengths index c) as [-> _]. exact Hc.
Qed.

Lemma counted_fields (c c' : Carousel.t) :
  slides c' = slides c → totalSlides c' = totalSlides c →
  counted c → counted c'.
Proof. unfold counted. by intros -> ->. Qed.

Lemma reset_counted this (c : Carousel.t) T :
  counted c →
  counted (if autoAdvance (options c)
           then startAutoAdvance this (stopAutoAdvance (c, T))
           else (c, T)).1.
Proof.
  intros Hc. destruct (autoAdvance (options c)); [|done].
  destruct (restart_fields this c T) as ((_ & Htot & _) & _ & Hs & _).
  by apply (counted_fields c).
Qed.

Lemma changeSlide_counted this d st :
  counted st.1 → counted (changeSlide this d st).1.
Proof.
  destruct st as [c T]. cbn [fst]. intros Hc. unfold changeSlide.
  set (i := if loop (options c) then _ else _).
  apply (reset_counted this (showSlide i (set_currentSlideIndex i c)) T).
  by apply showSlide_counted.
Qed.

Lemma goToSlide_counted this index st :
  counted st.1 → counted (goToSlide this index st).1.
Proof.
  destruct st as [c T]. cbn [fst]. intros Hc. unfold goToSlide.
  destruct ((index >=? 0) && (index <? totalSlides c)); [|done].
  apply (reset_counted this
           (showSlide index (set_currentSlideIndex index c)) T).
  by apply showSlide_counted.
Qed.

Lemma timer_only_counted this st :
  counted st.1 →
  counted (stopAutoAdvance st).1 ∧ counted (startAutoAdvance this st).1.
Proof.
  destruct st as [c T]. unfold counted, startAutoAdvance, stopAutoAdvance.
  by destruct c as [? ? ? ? ? ? [h|] ? ?].
Qed.

Lemma dispatch_counted this e st :
  counted st.1 → counted (dispatch this e st).1.
Proof.
  destruct st as [c T]. cbn [fst]. intros Hc.
  pose proof (timer_only_counted this (c, T) Hc) as [Hstop Hstart].
  destruct e; unfold dispatch, handleSwipe, next, prev, goTo, destroy;
    cbn [fst snd];
    repeat case_match;
    first [ assumption
          | apply (changeSlide_counted this _ (_, _)); assumption
          | apply (goToSlide_counted this _ (_, _)); assumption ].
Qed.

Lemma run_counted this es : ∀ st,
  counted st.1 → counted (run this es st).1.
Proof.
  induction es as [|e es IH]; intros st Hc; [done|].
  apply IH. by apply dispatch_counted.
Qed.

Lemma new_counted this found ov T c T' :
  new this found ov T = (Initialised c, T') → counted c ∧ 1 ≤ totalSlides c.
Proof.
  intros Hnew. unfold new in Hnew.
  destruct found as [cont|]; [|discriminate].
  cbn zeta in Hnew. cbn [totalSlides] in Hnew.
  destruct (Z.eqb_spec (Z.of_nat (length (slideNodes cont))) 0) as [|Hpos];
    [discriminate|].
  match type of Hnew with context [init this (?c0, T)] =>
    pose proof (init_fields this c0 T) as ((_ & Htot & _) & _ & Hs & _);
    pose proof (showSlide_lengths (currentSlideIndex c0) c0) as [Hlen _];
    destruct (init this (c0, T)) as [c1 T1]
  end.
  injection Hnew as <- <-. cbn [fst totalSlides slides currentSlideIndex] in *.
  unfold counted. rewrite Htot, Hs, Hlen. split; [reflexivity | lia].
Qed.

(** * Further properties *)

(** ** Counting steps *)

Lemma iter_changeSlide_config this d (st : St) (k : nat) :
  sameConfig st.1 (Nat.iter k (changeSlide this d) st).1.
Proof.
  induction k as [|k IH]; simpl; [apply sameConfig_refl|].
  eapply sameConfig_trans; [exact IH | apply changeSlide_config].
Qed.

Lemma iter_changeSlide_index this d (st : St) (k : nat) :
  currentSlideIndex (Nat.iter (S k) (changeSlide this d) st).1 =
  boundary (loop (options st.1)) (totalSlides st.1)
           (currentSlideIndex (Nat.iter k (changeSlide this d) st).1 + d).
Proof.
  simpl. rewrite changeSlide_index.
  by destruct (iter_changeSlide_config this d st k) as (-> & -> & _).
Qed.

Lemma boundary_loop_succ n a :
  0 < n → boundary true n (a mod n + 1) = (a + 1) mod n.
Proof.
  intros Hn. unfold boundary.
  pose proof (Z.mod_pos_bound a n Hn) as Hm.
  rewrite <- (Zplus_mod_idemp_l a 1 n).
  destruct (Z.geb_spec (a mod n + 1) n) as [Hge|Hlt].
  - replace (a mod n + 1) with n by lia. by rewrite Z_mod_same_full.
  - destruct (Z.ltb_spec (a mod n + 1) 0); [lia|].
    by rewrite (Z.mod_small (a mod n + 1)) by lia.
Qed.

Lemma boundary_loop_pred n a :
  0 < n → boundary true n (a mod n + -1) = (a - 1) mod n.
Proof.
  intros Hn. unfold boundary.
  pose proof (Z.mod_pos_bound a n Hn) as Hm.
  rewrite <- (Zminus_mod_idemp_l a 1 n).
  destruct (Z.geb_spec (a mod n + -1) n) as [Hge|Hlt]; [lia|].
  destruct (Z.ltb_spec (a mod n + -1) 0) as [Hneg|Hpos].
  - replace (a mod n - 1) with (n - 1 + (-1) * n) by lia.
    rewrite Z.mod_add by lia. by rewrite (Z.mod_small (n - 1)) by lia.
  - replace (a mod n + -1) with (a mod n - 1) by lia.
    by rewrite (Z.mod_small (a mod n - 1)) by lia.
Qed.

(** X1. In loop mode, from an index inside the range, [k] calls of
    [next()] arrive at [(index + k) mod totalSlides] and [k] calls of
    [prev()] at [(index - k) mod totalSlides]; [totalSlides] calls of
    [next()] come back to the index they started from. *)
Theorem loop_steps_are_modular this (st : St) (k : nat) :
  loop (options st.1) = true →
  0 ≤ currentSlideIndex st.1 < totalSlides st.1 →
  currentSlideIndex (Nat.iter k (next this) st).1
  = (currentSlideIndex st.1 + Z.of_nat k) mod totalSlides st.1
  ∧ currentSlideIndex (Nat.iter k (prev this) st).1
    = (currentSlideIndex st.1 - Z.of_nat k) mod totalSlides st.1
  ∧ currentSlideIndex
      (Nat.iter (Z.to_nat (totalSlides st.1)) (next this) st).1
    = currentSlideIndex st.1.
Proof.
  intros Hloop Hin. assert (Hn : 0 < totalSlides st.1) by lia.
  assert (Hfwd : ∀ j : nat,
    currentSlideIndex (Nat.iter j (changeSlide this 1) st).1
    = (currentSlideIndex st.1 + Z.of_nat j) mod totalSlides st.1).
  { induction j as [|j IH].
    - simpl. rewrite Z.add_0_r. by rewrite Z.mod_small.
    - rewrite iter_changeSlide_index, IH, Hloop, boundary_loop_succ by done.
      f_equal. lia. }
  assert (Hbwd : ∀ j : nat,
    currentSlideIndex (Nat.iter j (changeSlide this (-1)) st).1
    = (currentSlideIndex st.1 - Z.of_nat j) mod totalSlides st.1).
  { induction j as [|j IH].
    - simpl. rewrite Z.sub_0_r. by rewrite Z.mod_small.
    - rewrite iter_changeSlide_index, IH, Hloop, boundary_loop_pred by done.
      f_equal. lia. }
  split; [apply Hfwd|]. split; [apply Hbwd|].
  change (next this) with (changeSlide this 1).
  rewrite Hfwd, Z2Nat.id by lia.
  rewrite <- (Z.mul_1_l (totalSlides st.1)) at 1.
  rewrite Z.mod_add by lia. by apply Z.mod_small.
Qed.

Lemma loop_steps_are_modular_witness :
  currentSlideIndex (Nat.iter 7 (next 0%nat) (demo true true 1)).1
  = (1 + 7) mod 3
  ∧ currentSlideIndex (Nat.iter 7 (prev 0%nat) (demo true true 1)).1
    = (1 - 7) mod 3
  ∧ currentSlideIndex (Nat.iter 3 (next 0%nat) (demo true true 1)).1 = 1.
Proof.
  apply (loop_steps_are_modular 0%nat (demo true true 1) 7);
    [reflexivity | vm_compute; split; [discriminate | reflexivity]].
Defined.

(** X2. In clamp mode, from an index inside the range, [k] calls of
    [next()] arrive at [min (index + k) (totalSlides - 1)] and [k] calls
    of [prev()] at [max (index - k) 0]. *)
Theorem clamp_steps_saturate this (st : St) (k : nat) :
  loop (options st.1) = false →
  0 ≤ currentSlideIndex st.1 < totalSlides st.1 →
  currentSlideIndex (Nat.iter k (next this) st).1
  = Z.min (currentSlideIndex st.1 + Z.of_nat k) (totalSlides st.1 - 1)
  ∧ currentSlideIndex (Nat.iter k (prev this) st).1
    = Z.max (currentSlideIndex st.1 - Z.of_nat k) 0.
Proof.
  intros Hclamp Hin. split.
  - change (next this) with (changeSlide this 1).
    induction k as [|k IH]; [simpl; lia|].
    rewrite iter_changeSlide_index, IH, Hclamp. unfold boundary. lia.
  - change (prev this) with (changeSlide this (-1)).
    induction k as [|k IH]; [simpl; lia|].
    rewrite iter_changeSlide_index, IH, Hclamp. unfold boundary. lia.
Qed.

Lemma clamp_steps_saturate_witness :
  currentSlideIndex (Nat.iter 5 (next 0%nat) (demo true false 1)).1
  = Z.min (1 + 5) (3 - 1)
  ∧ currentSlideIndex (Nat.iter 5 (prev 0%nat) (demo true false 1)).1
    = Z.max (1 - 5) 0.
Proof.
  apply (clamp_steps_saturate 0%nat (demo true false 1) 5);
    [reflexivity | vm_compute; split; [discriminate | reflexivity]].
Defined.

(** ** What the page shows *)

Lemma sameView_refl c : sameView c c.
Proof. by repeat split. Qed.

Lemma sameView_trans c1 c2 c3 :
  sameView c1 c2 → sameView c2 c3 → sameView c1 c3.
Proof.
  intros (Hc & ? & ? & ?) (Hc' & ? & ? & ?).
  split; [by eapply sameConfig_trans|]. repeat split; congruence.
Qed.

Lemma stopAutoAdvance_view st : sameView st.1 (stopAutoAdvance st).1.
Proof.
  destruct st as [c T]. unfold stopAutoAdvance.
  by destruct c as [? ? ? ? ? ? [h|] ? ?].
Qed.

Lemma startAutoAdvance_view this st :
  sameView st.1 (startAutoAdvance this st).1.
Proof.
  destruct st as [c T]. unfold startAutoAdvance, stopAutoAdvance.
  by destruct c as [? ? ? ? ? ? [h|] ? ?].
Qed.

(** The fields after a relative transition are, as far as the page shows
    them, those of the render at the new index. *)
Lemma changeSlide_view this d c T :
  let i := boundary (loop (options c)) (totalSlides c)
                    (currentSlideIndex c + d) in
  sameView (showSlide i (set_currentSlideIndex i c))
           (changeSlide this d (c, T)).1.
Proof.
  intros i. unfold changeSlide. fold (boundary (loop (options c))
    (totalSlides c) (currentSlideIndex c + d)). fold i.
  change (options (showSlide i (set_currentSlideIndex i c))) with (options c).
  destruct (autoAdvance (options c)); [|apply sameView_refl].
  destruct (restart_fields this (showSlide i (set_currentSlideIndex i c)) T)
    as (Hc & ? & ? & ? & _).
  split; [exact Hc | by repeat split].
Qed.

Lemma goToSlide_view this i c T :
  0 ≤ i < totalSlides c →
  sameView (showSlide i (set_currentSlideIndex i c))
           (goToSlide this i (c, T)).1.
Proof.
  intros Hi. rewrite goToSlide_in_range by done. cbn zeta.
  destruct (autoAdvance (options c)); [|apply sameView_refl].
  destruct (restart_fields this (showSlide i (set_currentSlideIndex i c)) T)
    as (Hc & ? & ? & ? & _).
  split; [exact Hc | by repeat split].
Qed.

(** A property of what the page shows holds after every sequence of
    events once it holds before, provided the two renders keep it. *)
Lemma run_view_invariant this (P : Carousel.t → Prop) :
  (∀ c c', sameView c c' → P c → P c') →
  (∀ c d, P c →
     let i := boundary (loop (options c)) (totalSlides c)
                       (currentSlideIndex c + d) in
     P (showSlide i (set_currentSlideIndex i c))) →
  (∀ c i, 0 ≤ i < totalSlides c → P c →
     P (showSlide i (set_currentSlideIndex i c))) →
  ∀ es st, P st.1 → P (run this es st).1.
Proof.
  intros Hview Hrel Habs.
  assert (Hchange : ∀ d st, P st.1 → P (changeSlide this d st).1).
  { intros d [c T] HP.
    eapply Hview; [apply changeSlide_view|]. by apply Hrel. }
  assert (Hgoto : ∀ i st, P st.1 → P (goToSlide this i st).1).
  { intros i [c T] HP. cbn [fst] in HP.
    destruct (decide (0 ≤ i < totalSlides c)) as [Hi|Hi].
    - eapply Hview; [by apply goToSlide_view|]. by apply Habs.
    - rewrite goToSlide_out_of_range; [done | cbn [fst]; lia]. }
  assert (Hstop : ∀ st, P st.1 → P (stopAutoAdvance st).1).
  { intros st HP. eapply Hview; [apply stopAutoAdvance_view | done]. }
  assert (Hstart : ∀ st, P st.1 → P (startAutoAdvance this st).1).
  { intros st HP. eapply Hview; [apply startAutoAdvance_view | done]. }
  assert (Hstep : ∀ e st, P st.1 → P (dispatch this e st).1).
  { intros e [c T] HP. cbn [fst] in HP.
    destruct e; unfold dispatch, handleSwipe, next, prev, goTo, destroy;
      cbn [fst snd]; repeat case_match;
      first [ assumption
            | by apply (Hchange _ (_, _))
            | by apply (Hgoto _ (_, _))
            | by apply (Hstop (_, _))
            | by apply (Hstart (_, _))
            | by apply (Hview c)
            | apply (Hchange _ (_, _)); by apply (Hview c) ]. }
  induction es as [|e es IH]; intros st HP; [done|].
  apply IH. by apply Hstep.
Qed.

(** The same for a construction followed by events: [init()] renders the
    start index once. *)
Lemma constructed_view_invariant this (P : Carousel.t → Prop) :
  (∀ c c', sameView c c' → P c → P c') →
  (∀ c d, P c →
     let i := boundary (loop (options c)) (totalSlides c)
                       (currentSlideIndex c + d) in
     P (showSlide i (set_currentSlideIndex i c))) →
  (∀ c i, 0 ≤ i < totalSlides c → P c →
     P (showSlide i (set_currentSlideIndex i c))) →
  ∀ cont ov T c T' es,
    new this (Some cont) ov T = (Initialised c, T') →
    P (showSlide (default 0 (o_startSlide ov))
         (Carousel.mk cont (mergeOptions ov) (default 0 (o_startSlide ov))
            (slideNodes cont) (indicatorNodes cont)
            (Z.of_nat (length (slideNodes cont))) None 0 0)) →
    P (run this es (c, T')).1.
Proof.
  intros Hview Hrel Habs cont ov T c T' es Hnew HP.
  apply (run_view_invariant this P Hview Hrel Habs es (c, T')). cbn [fst].
  unfold new in Hnew. cbn zeta in Hnew. destruct (_ =? 0); [discriminate|].
  unfold init in Hnew. cbn zeta in Hnew.
  match type of Hnew with context [if ?b then _ else _] => destruct b end.
  - match type of Hnew with context [startAutoAdvance this ?s] =>
      pose proof (startAutoAdvance_view this s) as Hv;
      destruct (startAutoAdvance this s) as [c1 T1]
    end.
    injection Hnew as <- <-. by apply (Hview _ _ Hv).
  - by injection Hnew as <- <-.
Qed.

(** ** The display follows the index *)

Lemma cleared_alter (l : list Element) : ∀ i : nat,
  classList_remove_active <$> alter classList_add_active i l
  = classList_remove_active <$> l.
Proof.
  induction l as [|e l IH]; intros [|i]; simpl; try done.
  f_equal. apply IH.
Qed.

Lemma node_alter (l : list Element) : ∀ i : nat,
  node <$> alter classList_add_active i l = node <$> l.
Proof.
  induction l as [|e l IH]; intros [|i]; simpl; try done.
  f_equal. apply IH.
Qed.

Lemma node_cleared (l : list Element) :
  node <$> (classList_remove_active <$> l) = node <$> l.
Proof. induction l as [|e l IH]; simpl; [done | f_equal; apply IH]. Qed.

(** A render forgets the marks it finds. *)
Lemma showSlide_ext i (c c' : Carousel.t) :
  classList_remove_active <$> slides c' = classList_remove_active <$> slides c →
  classList_remove_active <$> indicators c'
  = classList_remove_active <$> indicators c →
  slides (showSlide i c') = slides (showSlide i c)
  ∧ indicators (showSlide i c') = indicators (showSlide i c).
Proof.
  intros Hs Hi. unfold showSlide. cbn [slides indicators set_nodes].
  by rewrite Hs, Hi.
Qed.

Lemma cleared_showSlide j (c : Carousel.t) :
  classList_remove_active <$> slides (showSlide j c)
  = classList_remove_active <$> slides c
  ∧ classList_remove_active <$> indicators (showSlide j c)
    = classList_remove_active <$> indicators c.
Proof.
  unfold showSlide. cbn [slides indicators set_nodes].
  assert (Hidem : ∀ l : list Element,
    classList_remove_active <$> (classList_remove_active <$> l)
    = classList_remove_active <$> l).
  { intros l. rewrite <- list_fmap_compose. by apply list_fmap_ext. }
  split.
  - destruct (nodeAt _ j); rewrite ?cleared_alter; apply Hidem.
  - destruct (nodeAt (classList_remove_active <$> indicators c) j);
      rewrite ?cleared_alter; apply Hidem.
Qed.

Lemma node_showSlide j (c : Carousel.t) :
  node <$> slides (showSlide j c) = node <$> slides c
  ∧ node <$> indicators (showSlide j c) = node <$> indicators c.
Proof.
  unfold showSlide. cbn [slides indicators set_nodes]. split.
  - destruct (nodeAt _ j); rewrite ?node_alter; apply node_cleared.
  - destruct (nodeAt (classList_remove_active <$> indicators c) j);
      rewrite ?node_alter; apply node_cleared.
Qed.

Lemma synced_render i (c : Carousel.t) :
  synced (showSlide i (set_currentSlideIndex i c)).
Proof.
  unfold synced.
  change (currentSlideIndex (showSlide i (set_currentSlideIndex i c))) with i.
  destruct (cleared_showSlide i (set_currentSlideIndex i c)) as [Hs Hi].
  destruct (showSlide_ext i (set_currentSlideIndex i c)
              (showSlide i (set_currentSlideIndex i c)) Hs Hi) as [-> ->].
  done.
Qed.

Lemma synced_view (c c' : Carousel.t) : sameView c c' → synced c → synced c'.
Proof.
  intros (_ & Hidx & Hs & Hi) [Hsl Hin]. unfold synced.
  destruct (showSlide_ext (currentSlideIndex c') c c') as [-> ->];
    [by rewrite Hs | by rewrite Hi |].
  rewrite Hs, Hi, Hidx. by split.
Qed.

Lemma inRange_kept this cont ov T c T' es :
  new this (Some cont) ov T = (Initialised c, T') →
  0 ≤ default 0 (o_startSlide ov) < Z.of_nat (length (slideNodes cont)) →
  inRange (run this es (c, T')).1.
Proof.
  intros Hnew Hstart.
  apply (constructed_view_invariant this
           (λ c, 1 ≤ totalSlides c ∧ inRange c)) with (es := es) in Hnew;
    [apply Hnew | | | |].
  - intros c1 c2 ((_ & Htot & _) & Hidx & _) [H1 Hin]. unfold inRange in *.
    rewrite Htot, Hidx. by split.
  - intros c1 d [H1 _] i. split; [exact H1|]. unfold inRange.
    change (currentSlideIndex (showSlide i (set_currentSlideIndex i c1)))
      with i.
    change (totalSlides (showSlide i (set_currentSlideIndex i c1)))
      with (totalSlides c1).
    by apply boundary_in_range.
  - intros c1 i Hi [H1 _]. split; [exact H1 | exact Hi].
  - unfold inRange. cbn. lia.
Qed.

(** X4. After a successful construction and any sequence of events the
    elements are marked as a render of the current index marks them.  So
    whenever the index points at a slide, that slide is the one active
    slide; and the index does point at a slide throughout whenever
    [startSlide] did. *)
Theorem display_follows_index this (cont : Container) (ov : Overrides)
    (T : Timers) (c : Carousel.t) (T' : Timers) (es : list Event) :
  new this (Some cont) ov T = (Initialised c, T') →
  let st := run this es (c, T') in
  synced st.1
  ∧ (inRange st.1 →
     countActive (slides st.1) = 1%nat
     ∧ active <$> slides st.1 !! Z.to_nat (currentSlideIndex st.1)
       = Some true)
  ∧ (0 ≤ default 0 (o_startSlide ov) < Z.of_nat (length (slideNodes cont)) →
     inRange st.1).
Proof.
  intros Hnew st.
  assert (Hsync : synced st.1).
  { apply (constructed_view_invariant this synced) with (es := es) in Hnew;
      [exact Hnew | apply synced_view | | |].
    - intros c1 d _ i. apply synced_render.
    - intros c1 i _ _. apply synced_render.
    - apply (synced_render (default 0 (o_startSlide ov))
               (Carousel.mk cont (mergeOptions ov) 0 (slideNodes cont)
                  (indicatorNodes cont)
                  (Z.of_nat (length (slideNodes cont))) None 0 0)). }
  split; [exact Hsync|]. split; [|exact (inRange_kept this cont ov T c T' es Hnew)].
  intros Hin. destruct Hsync as [-> _].
  destruct (new_counted this _ ov T c T' Hnew) as [Hc _].
  apply (run_counted this es (c, T')) in Hc. fold st in Hc.
  unfold inRange in Hin. rewrite Hc in Hin.
  apply (render_inside (slides st.1) (currentSlideIndex st.1) Hin).
Qed.

Lemma display_follows_index_witness :
  let st := run 0%nat [ClickPrev; KeyDown "ArrowRight"; ClickIndicator 2;
                       TouchStart 10; TouchEnd 200; MouseEnter; CallGoTo 9]
                (demo true true 1) in
  synced st.1
  ∧ (inRange st.1 →
     countActive (slides st.1) = 1%nat
     ∧ active <$> slides st.1 !! Z.to_nat (currentSlideIndex st.1)
       = Some true)
  ∧ (0 ≤ 1 < 3 → inRange st.1).
Proof.
  apply (display_follows_index 0%nat demoContainer (demoOverrides true true 1)
           noTimers (demo true true 1).1 (demo true true 1).2).
  reflexivity.
Defined.

(** What a relative transition leaves on the page, read from the state
    before it. *)
Lemma changeSlide_shows this d (st : St) :
  let i := boundary (loop (options st.1)) (totalSlides st.1)
                    (currentSlideIndex st.1 + d) in
  sameConfig st.1 (changeSlide this d st).1
  ∧ currentSlideIndex (changeSlide this d st).1 = i
  ∧ slides (changeSlide this d st).1 = slides (showSlide i st.1)
  ∧ indicators (changeSlide this d st).1 = indicators (showSlide i st.1).
Proof.
  destruct st as [c T]. cbn [fst]. cbn zeta.
  destruct (changeSlide_view this d c T) as (Hc & Hidx & Hs & Hi).
  split; [exact Hc|]. split; [exact Hidx|]. split; [exact Hs | exact Hi].
Qed.

Lemma boundary_loop_round_trip n i :
  0 ≤ i < n →
  boundary true n (boundary true n (i + 1) + -1) = i
  ∧ boundary true n (boundary true n (i + -1) + 1) = i.
Proof.
  intros Hi. unfold boundary. split.
  - destruct (Z.geb_spec (i + 1) n).
    + destruct (Z.geb_spec (0 + -1) n); [lia|].
      destruct (Z.ltb_spec (0 + -1) 0); lia.
    + destruct (Z.ltb_spec (i + 1) 0); [lia|].
      destruct (Z.geb_spec (i + 1 + -1) n); [lia|].
      destruct (Z.ltb_spec (i + 1 + -1) 0); lia.
  - destruct (Z.geb_spec (i + -1) n); [lia|].
    destruct (Z.ltb_spec (i + -1) 0).
    + destruct (Z.geb_spec (n - 1 + 1) n); lia.
    + destruct (Z.geb_spec (i + -1 + 1) n); [lia|].
      destruct (Z.ltb_spec (i + -1 + 1) 0); lia.
Qed.

(** Two relative transitions in a row that come back to the index. *)
Lemma there_and_back this d1 d2 (st : St) :
  synced st.1 →
  boundary (loop (options st.1)) (totalSlides st.1)
    (boundary (loop (options st.1)) (totalSlides st.1)
       (currentSlideIndex st.1 + d1) + d2) = currentSlideIndex st.1 →
  sameView st.1 (changeSlide this d2 (changeSlide this d1 st)).1.
Proof.
  intros [Hsl Hin] Hback.
  destruct (changeSlide_shows this d1 st) as (Hc1 & Hi1 & Hs1 & Hn1).
  destruct (changeSlide_shows this d2 (changeSlide this d1 st))
    as (Hc2 & Hi2 & Hs2 & Hn2).
  destruct Hc1 as (Ho1 & Ht1 & Hk1). rewrite Ho1, Ht1, Hi1, Hback in *.
  destruct (showSlide_ext (currentSlideIndex st.1) st.1
              (changeSlide this d1 st).1) as [Hs Hn].
  { rewrite Hs1. apply cleared_showSlide. }
  { rewrite Hn1. apply cleared_showSlide. }
  split.
  - eapply sameConfig_trans; [|exact Hc2]. by repeat split.
  - rewrite Hi2, Hs2, Hn2, Hs, Hn, <- Hsl, <- Hin. by repeat split.
Qed.

(** X3. In loop mode, on an instance whose display is in step with an
    index inside the range, [next()] followed by [prev()], and [prev()]
    followed by [next()], bring back the index and every mark on the
    slides and indicators. *)
Theorem next_prev_round_trip this (st : St) :
  loop (options st.1) = true →
  inRange st.1 →
  synced st.1 →
  sameView st.1 (prev this (next this st)).1
  ∧ sameView st.1 (next this (prev this st)).1.
Proof.
  intros Hloop Hin Hsync.
  destruct (boundary_loop_round_trip (totalSlides st.1)
              (currentSlideIndex st.1) Hin) as [H1 H2].
  split; apply there_and_back; try done; by rewrite Hloop.
Qed.

Lemma next_prev_round_trip_witness :
  sameView (demo true true 2).1
           (prev 0%nat (next 0%nat (demo true true 2))).1
  ∧ sameView (demo true true 2).1
             (next 0%nat (prev 0%nat (demo true true 2))).1.
Proof.
  apply (next_prev_round_trip 0%nat (demo true true 2)).
  - reflexivity.
  - vm_compute. split; [discriminate | reflexivity].
  - split; reflexivity.
Defined.

(** ** What construction fixes *)

(** X5. After a successful construction and any sequence of events the
    instance holds the container, the merged options, the slide count and
    the slide and indicator nodes, in their order, that it was built
    with. *)
Theorem construction_fixes_structure this (cont : Container)
    (ov : Overrides) (T : Timers) (c : Carousel.t) (T' : Timers)
    (es : list Event) :
  new this (Some cont) ov T = (Initialised c, T') →
  let st := run this es (c, T') in
  container st.1 = cont
  ∧ options st.1 = mergeOptions ov
  ∧ totalSlides st.1 = Z.of_nat (length (slideNodes cont))
  ∧ node <$> slides st.1 = node <$> slideNodes cont
  ∧ node <$> indicators st.1 = node <$> indicatorNodes cont.
Proof.
  intros Hnew st.
  apply (constructed_view_invariant this (λ c,
           container c = cont ∧ options c = mergeOptions ov
           ∧ totalSlides c = Z.of_nat (length (slideNodes cont))
           ∧ node <$> slides c = node <$> slideNodes cont
           ∧ node <$> indicators c = node <$> indicatorNodes cont))
    with (es := es) in Hnew; [exact Hnew | | | |].
  - intros c1 c2 ((Ho & Ht & Hk) & _ & Hs & Hi) (? & ? & ? & ? & ?).
    rewrite Ho, Ht, Hk, Hs, Hi. by repeat split.
  - intros c1 d (? & ? & ? & ? & ?) i.
    destruct (node_showSlide i (set_currentSlideIndex i c1)) as [-> ->].
    by repeat split.
  - intros c1 i _ (? & ? & ? & ? & ?).
    destruct (node_showSlide i (set_currentSlideIndex i c1)) as [-> ->].
    by repeat split.
  - match goal with |- context [showSlide ?i ?c0] =>
      destruct (node_showSlide i c0) as [-> ->] end.
    by repeat split.
Qed.

Lemma construction_fixes_structure_witness :
  let st := run 0%nat [ClickNext; ClickIndicator 0; CallDestroy; CallPrev]
                (demo false false 2) in
  container st.1 = demoContainer
  ∧ options st.1 = mergeOptions (demoOverrides false false 2)
  ∧ totalSlides st.1 = 3
  ∧ node <$> slides st.1 = [0; 1; 2]%nat
  ∧ node <$> indicators st.1 = [3; 4; 5]%nat.
Proof.
  apply (construction_fixes_structure 0%nat demoContainer
           (demoOverrides false false 2) noTimers
           (demo false false 2).1 (demo false false 2).2).
  reflexivity.
Defined.

(** ** Timers: which handler may touch them *)

(** A property of the stored handle and the timer table holds after every
    sequence of events once it holds before, provided it is kept by
    [stopAutoAdvance] and, for an instance with [autoAdvance] on, by
    [startAutoAdvance]: no handler starts a timer otherwise. *)
Lemma run_timer_invariant this (P : St → Prop) :
  (∀ c c' T, autoAdvanceInterval c' = autoAdvanceInterval c →
             options c' = options c → P (c, T) → P (c', T)) →
  (∀ st, P st → P (stopAutoAdvance st)) →
  (∀ st, autoAdvance (options st.1) = true → P st →
         P (startAutoAdvance this st)) →
  ∀ es st, P st → P (run this es st).
Proof.
  intros Hfields Hstop Hstart.
  assert (Hreset : ∀ c c' T,
    autoAdvanceInterval c' = autoAdvanceInterval c →
    options c' = options c → P (c, T) →
    P (if autoAdvance (options c')
       then startAutoAdvance this (stopAutoAdvance (c', T))
       else (c', T))).
  { intros c c' T Hh Ho HP. apply (Hfields c c' T Hh Ho) in HP.
    destruct (autoAdvance (options c')) eqn:Hauto; [|done].
    rewrite restart_eq. by apply Hstart. }
  assert (Hchange : ∀ d st, P st → P (changeSlide this d st)).
  { intros d [c T] HP. unfold changeSlide. by apply (Hreset c). }
  assert (Hgoto : ∀ i st, P st → P (goToSlide this i st)).
  { intros i [c T] HP. unfold goToSlide.
    destruct ((i >=? 0) && (i <? totalSlides c)); [|done].
    by apply (Hreset c). }
  assert (Hstep : ∀ e st, P st → P (dispatch this e st)).
  { intros e [c T] HP.
    destruct e; unfold dispatch, handleSwipe, next, prev, goTo, destroy;
      cbn [fst snd]; repeat case_match;
      first [ assumption
            | by apply Hchange
            | by apply Hgoto
            | by apply Hstop
            | by apply Hstart
            | by apply (Hfields c)
            | apply Hchange; by apply (Hfields c) ]. }
  induction es as [|e es IH]; intros st HP; [done|].
  apply IH. by apply Hstep.
Qed.

(** The same from a construction on: a new object stores no handle. *)
Lemma constructed_timer_invariant this (P : St → Prop) :
  (∀ c c' T, autoAdvanceInterval c' = autoAdvanceInterval c →
             options c' = options c → P (c, T) → P (c', T)) →
  (∀ st, P st → P (stopAutoAdvance st)) →
  (∀ st, autoAdvance (options st.1) = true → P st →
         P (startAutoAdvance this st)) →
  ∀ found ov T c T' es,
    new this found ov T = (Initialised c, T') →
    (∀ c0, autoAdvanceInterval c0 = None → options c0 = mergeOptions ov →
           P (c0, T)) →
    P (run this es (c, T')).
Proof.
  intros Hfields Hstop Hstart found ov T c T' es Hnew HP.
  apply (run_timer_invariant this P Hfields Hstop Hstart).
  unfold new in Hnew. destruct found as [cont|]; [|discriminate].
  cbn zeta in Hnew. destruct (_ =? 0); [discriminate|].
  unfold init in Hnew. cbn zeta in Hnew.
  match type of Hnew with context [showSlide ?i ?c0] =>
    specialize (HP (showSlide i c0) eq_refl eq_refl);
    change (options (showSlide i c0)) with (mergeOptions ov) in Hnew;
    destruct (autoAdvance (mergeOptions ov)) eqn:Hauto;
    [ apply (Hstart (showSlide i c0, T) Hauto) in HP;
      destruct (startAutoAdvance this (showSlide i c0, T)) as [c1 T1] | ]
  end; by injection Hnew as <- <-.
Qed.

(** X6. With [autoAdvance] switched off in the options the instance never
    starts or cancels a timer: after construction and any sequence of
    events it stores no handle and the timer table of the page is the one
    from before the construction. *)
Theorem autoAdvance_off_leaves_timers_alone this (found : option Container)
    (ov : Overrides) (T : Timers) (c : Carousel.t) (T' : Timers)
    (es : list Event) :
  o_autoAdvance ov = Some false →
  new this found ov T = (Initialised c, T') →
  autoAdvanceInterval (run this es (c, T')).1 = None
  ∧ (run this es (c, T')).2 = T.
Proof.
  intros Hoff Hnew.
  apply (constructed_timer_invariant this (λ st,
           autoAdvance (options st.1) = false
           ∧ autoAdvanceInterval st.1 = None ∧ st.2 = T))
    with (es := es) in Hnew; [by destruct Hnew as (_ & ? & ?) | | | |].
  - intros c1 c2 T1 Hh Ho. cbn [fst snd]. by rewrite Hh, Ho.
  - intros [c1 T1] (Ha & Hh & HT). cbn [fst snd] in *.
    unfold stopAutoAdvance. by rewrite Hh.
  - intros st Hon (Ha & _). congruence.
  - intros c0 Hh Ho. cbn [fst snd]. rewrite Ho. cbn. by rewrite Hoff.
Qed.

Lemma autoAdvance_off_leaves_timers_alone_witness :
  let st := run 0%nat [ClickNext; MouseEnter; MouseLeave; TimerFires 1;
                       KeyDown "ArrowLeft"; CallGoTo 2; CallDestroy]
                (init 0%nat (demoFields false true 0, busyTimers)) in
  autoAdvanceInterval st.1 = None ∧ st.2 = busyTimers.
Proof.
  apply (autoAdvance_off_leaves_timers_alone 0%nat (Some demoContainer)
           (demoOverrides false true 0) busyTimers
           (init 0%nat (demoFields false true 0, busyTimers)).1
           (init 0%nat (demoFields false true 0, busyTimers)).2);
    reflexivity.
Defined.

Lemma constructed_timerInv this found ov T c T' es :
  liveTimers this T = 0%nat →
  new this found ov T = (Initialised c, T') →
  timerInv this (run this es (c, T'))
  ∧ options (run this es (c, T')).1 = mergeOptions ov.
Proof.
  intros Hnone Hnew.
  destruct (new_timerInv this found ov T c T' Hnone Hnew) as [Hinv Hopt].
  split; [by apply run_timerInv|].
  destruct (run_config this es (c, T')) as (-> & _). exact Hopt.
Qed.

(** A tick of a timer that is not the instance's live one passes by. *)
Lemma foreign_tick_ignored this h (st : St) :
  tracked this st → autoAdvanceInterval st.1 ≠ Some h →
  dispatch this (TimerFires h) st = st.
Proof.
  intros Htr Hne. unfold dispatch.
  destruct (live st.2 !! h) as [iv|] eqn:Hh; [|done].
  destruct (decide (callbackThis iv = this)) as [Hown|]; [|done].
  by destruct Hne, (Htr h iv Hh Hown).
Qed.

(** X7. [destroy()] on a running instance cancels its timer: the instance
    stores no handle and owns no live timer, what the page shows is as
    before, and no timer tick changes the instance any more.  It does not
    switch auto-advance off: with [autoAdvance] on, the next call of
    [next()] leaves the instance with one live timer again. *)
Theorem destroy_cancels_but_does_not_disable this
    (found : option Container) (ov : Overrides) (T : Timers)
    (c : Carousel.t) (T' : Timers) (es : list Event) :
  liveTimers this T = 0%nat →
  new this found ov T = (Initialised c, T') →
  let st := destroy (run this es (c, T')) in
  autoAdvanceInterval st.1 = None
  ∧ liveTimers this st.2 = 0%nat
  ∧ sameView (run this es (c, T')).1 st.1
  ∧ (∀ h, dispatch this (TimerFires h) st = st)
  ∧ (autoAdvance (mergeOptions ov) = true →
     liveTimers this (next this st).2 = 1%nat).
Proof.
  intros Hnone Hnew st.
  destruct (constructed_timerInv this found ov T c T' es Hnone Hnew)
    as [Hinv Hopt].
  destruct (stopAutoAdvance_timerInv this _ Hinv) as [Hinv' H0].
  fold (destroy (run this es (c, T'))) in Hinv', H0. fold st in Hinv', H0.
  assert (Hnull : autoAdvanceInterval st.1 = None).
  { subst st. unfold destroy, stopAutoAdvance.
    destruct (run this es (c, T')) as [c1 T1].
    by destruct (autoAdvanceInterval c1) eqn:E. }
  split; [exact Hnull|]. split; [exact H0|].
  split; [apply stopAutoAdvance_view|]. split.
  - intros h. apply foreign_tick_ignored; [apply Hinv'|]. by rewrite Hnull.
  - intros Hauto. unfold next.
    destruct (stopAutoAdvance_config (run this es (c, T'))) as (Ho & _).
    fold (destroy (run this es (c, T'))) in Ho. fold st in Ho.
    destruct st as [c1 T1] eqn:Hst. cbn [fst snd] in *.
    unfold changeSlide.
    set (j := if loop (options c1) then _ else _).
    change (options (showSlide j (set_currentSlideIndex j c1)))
      with (options c1).
    rewrite Ho, Hopt, Hauto.
    by apply (reset_replaces_timer this c1).
Qed.

Lemma destroy_cancels_but_does_not_disable_witness :
  let st := destroy (run 0%nat [ClickNext; TimerFires 2]
                               (demo true true 0)) in
  autoAdvanceInterval st.1 = None
  ∧ liveTimers 0%nat st.2 = 0%nat
  ∧ sameView (run 0%nat [ClickNext; TimerFires 2] (demo true true 0)).1 st.1
  ∧ (∀ h, dispatch 0%nat (TimerFires h) st = st)
  ∧ (autoAdvance (mergeOptions (demoOverrides true true 0)) = true →
     liveTimers 0%nat (next 0%nat st).2 = 1%nat).
Proof.
  apply (destroy_cancels_but_does_not_disable 0%nat (Some demoContainer)
           (demoOverrides true true 0) noTimers
           (demo true true 0).1 (demo true true 0).2);
    reflexivity.
Defined.

(** X8. Hovering pauses: after [mouseenter] the instance owns no live
    timer; after the [mouseleave] that follows it owns exactly one if
    [autoAdvance] is on and still none if it is off.  Neither event
    changes what the page shows. *)
Theorem hover_pauses_and_resumes this (found : option Container)
    (ov : Overrides) (T : Timers) (c : Carousel.t) (T' : Timers)
    (es : list Event) :
  liveTimers this T = 0%nat →
  new this found ov T = (Initialised c, T') →
  let st := run this es (c, T') in
  let paused := dispatch this MouseEnter st in
  let resumed := dispatch this MouseLeave paused in
  liveTimers this paused.2 = 0%nat
  ∧ liveTimers this resumed.2
    = (if autoAdvance (mergeOptions ov) then 1 else 0)%nat
  ∧ sameView st.1 paused.1
  ∧ sameView st.1 resumed.1.
Proof.
  intros Hnone Hnew st paused resumed.
  destruct (constructed_timerInv this found ov T c T' es Hnone Hnew)
    as [Hinv Hopt]. fold st in Hinv, Hopt.
  destruct (stopAutoAdvance_timerInv this st Hinv) as [Hinv' H0].
  pose proof (stopAutoAdvance_view st) as Hv.
  pose proof (stopAutoAdvance_config st) as (Ho & _).
  change (stopAutoAdvance st) with paused in Hinv', H0, Hv, Ho.
  split; [exact H0|].
  assert (Hres : resumed = if autoAdvance (mergeOptions ov)
                           then startAutoAdvance this paused else paused).
  { subst resumed. unfold dispatch at 1. by rewrite Ho, Hopt. }
  rewrite Hres. clear Hres.
  destruct (autoAdvance (mergeOptions ov)).
  - destruct (startAutoAdvance_timer this paused Hinv')
      as (_ & _ & _ & _ & H1).
    split; [exact H1|]. split; [exact Hv|].
    eapply sameView_trans; [exact Hv | apply startAutoAdvance_view].
  - split; [exact H0|]. split; exact Hv.
Qed.

Lemma hover_pauses_and_resumes_witness :
  let st := run 0%nat [ClickNext; ClickNext] (demo true true 0) in
  let paused := dispatch 0%nat MouseEnter st in
  let resumed := dispatch 0%nat MouseLeave paused in
  liveTimers 0%nat paused.2 = 0%nat
  ∧ liveTimers 0%nat resumed.2
    = (if autoAdvance (mergeOptions (demoOverrides true true 0))
       then 1 else 0)%nat
  ∧ sameView st.1 paused.1
  ∧ sameView st.1 resumed.1.
Proof.
  apply (hover_pauses_and_resumes 0%nat (Some demoContainer)
           (demoOverrides true true 0) noTimers
           (demo true true 0).1 (demo true true 0).2);
    reflexivity.
Defined.

(** ** Timers: ticks and the timers of other objects *)

Lemma storedLive_stop this st :
  storedLive this st → storedLive this (stopAutoAdvance st).
Proof.
  destruct st as [c T]. unfold storedLive, stopAutoAdvance. cbn [fst snd].
  destruct (autoAdvanceInterval c) eqn:E; cbn [fst snd]; intros Hl h' Hh'.
  - cbn in Hh'. discriminate.
  - congruence.
Qed.

Lemma storedLive_start this st : storedLive this (startAutoAdvance this st).
Proof.
  destruct st as [c T]. rewrite startAutoAdvance_unfold.
  intros h Hh. cbn [fst snd set_autoAdvanceInterval autoAdvanceInterval live] in *.
  injection Hh as <-. eexists. split; [apply lookup_insert_eq | reflexivity].
Qed.

Lemma fresh_stop st : fresh st.2 → fresh (stopAutoAdvance st).2.
Proof.
  destruct st as [c T]. unfold fresh, stopAutoAdvance. cbn [snd].
  intros Hf. destruct (autoAdvanceInterval c); [|exact Hf].
  cbn. by apply map_Forall_delete.
Qed.

Lemma fresh_start this st : fresh st.2 → fresh (startAutoAdvance this st).2.
Proof.
  destruct st as [c T]. rewrite startAutoAdvance_unfold.
  unfold fresh. cbn [snd live nextHandle]. intros Hf.
  apply map_Forall_insert_2; [lia|].
  assert (Hlt : map_Forall (λ h _, (h < Pos.succ (nextHandle T))%positive)
                           (live T)).
  { intros h iv Hh. specialize (Hf h iv Hh). cbn in Hf. lia. }
  destruct (autoAdvanceInterval c); [by apply map_Forall_delete | exact Hlt].
Qed.

Lemma others_stop this T0 st :
  storedLive this st → othersKept this T0 st.2 →
  othersKept this T0 (stopAutoAdvance st).2.
Proof.
  destruct st as [c T]. unfold storedLive, othersKept, stopAutoAdvance.
  cbn [fst snd]. intros Hl Hk.
  destruct (autoAdvanceInterval c) as [h|] eqn:E; [|exact Hk].
  cbn. intros k iv Hk0 Hown. specialize (Hk k iv Hk0 Hown).
  rewrite lookup_delete_ne; [exact Hk|].
  intros <-. destruct (Hl h eq_refl) as (iv' & Hh & Hmine). congruence.
Qed.

Lemma others_start this T0 st :
  storedLive this st → fresh st.2 → othersKept this T0 st.2 →
  othersKept this T0 (startAutoAdvance this st).2.
Proof.
  intros Hl Hf Hk. pose proof (others_stop this T0 st Hl Hk) as Hk'.
  pose proof (fresh_stop st Hf) as Hf'.
  rewrite <- restart_eq.
  destruct (stopAutoAdvance st) as [c1 T1] eqn:Hst.
  assert (Hnull : autoAdvanceInterval c1 = None).
  { destruct st as [c T]. unfold stopAutoAdvance in Hst.
    destruct (autoAdvanceInterval c) eqn:E; injection Hst as <- <-; by cbn. }
  rewrite startAutoAdvance_unfold, Hnull. unfold othersKept, fresh in *.
  cbn [fst snd live nextHandle] in *.
  intros k iv Hk0 Hown. specialize (Hk' k iv Hk0 Hown).
  rewrite lookup_insert_ne; [exact Hk'|].
  intros <-. specialize (Hf' _ _ Hk'). cbn in Hf'. lia.
Qed.

(** X9. An instance leaves the timers of the rest of the page alone: a
    timer that was live before the construction, with a callback that is
    not the instance's, is still live and unchanged after the construction
    and any sequence of events of the instance. *)
Theorem other_timers_survive this (found : option Container)
    (ov : Overrides) (T : Timers) (c : Carousel.t) (T' : Timers)
    (es : list Event) :
  fresh T →
  new this found ov T = (Initialised c, T') →
  othersKept this T (run this es (c, T')).2
  ∧ fresh (run this es (c, T')).2.
Proof.
  intros Hfresh Hnew.
  apply (constructed_timer_invariant this (λ st,
           storedLive this st ∧ fresh st.2 ∧ othersKept this T st.2))
    with (es := es) in Hnew; [by destruct Hnew as (_ & ? & ?) | | | |].
  - intros c1 c2 T1 Hh _ (Hl & Hf & Hk). repeat split; try assumption.
    intros h Hs. cbn [fst snd] in *. rewrite Hh in Hs. by apply Hl.
  - intros st (Hl & Hf & Hk).
    split; [by apply storedLive_stop|].
    split; [by apply fresh_stop | by apply others_stop].
  - intros st _ (Hl & Hf & Hk).
    split; [apply storedLive_start|].
    split; [by apply fresh_start | by apply others_start].
  - intros c0 Hnull _. split; [|split; [exact Hfresh|]].
    + intros h Hs. cbn [fst] in Hs. congruence.
    + by intros h iv Hh _.
Qed.

Lemma other_timers_survive_witness :
  let st := run 0%nat [ClickNext; MouseEnter; MouseLeave; TimerFires 1;
                       TimerFires 4; CallDestroy; CallPrev]
                (init 0%nat (demoFields true true 0, busyTimers)) in
  othersKept 0%nat busyTimers st.2 ∧ fresh st.2.
Proof.
  apply (other_timers_survive 0%nat (Some demoContainer)
           (demoOverrides true true 0) busyTimers
           (init 0%nat (demoFields true true 0, busyTimers)).1
           (init 0%nat (demoFields true true 0, busyTimers)).2).
  - unfold fresh, busyTimers. cbn [live nextHandle].
    apply map_Forall_singleton. reflexivity.
  - reflexivity.
Defined.

(** X10. Of all timer ticks only the one of the stored handle reaches a
    running instance, and it acts as [next()].  That tick cancels the
    timer it came from and stores a newly created one, which is then the
    instance's only live timer. *)
Theorem only_the_stored_timer_ticks this (found : option Container)
    (ov : Overrides) (T : Timers) (c : Carousel.t) (T' : Timers)
    (es : list Event) (h : positive) :
  liveTimers this T = 0%nat →
  new this found ov T = (Initialised c, T') →
  let st := run this es (c, T') in
  let st' := dispatch this (TimerFires h) st in
  st' = (if decide (autoAdvanceInterval st.1 = Some h)
         then next this st else st)
  ∧ (autoAdvanceInterval st.1 = Some h →
     autoAdvanceInterval st'.1 = Some (nextHandle st.2)
     ∧ live st'.2 !! h = None
     ∧ liveTimers this st'.2 = 1%nat).
Proof.
  intros Hnone Hnew st st'.
  destruct (constructed_timerInv this found ov T c T' es Hnone Hnew)
    as [Hinv _]. fold st in Hinv.
  assert (Hmore : storedLive this st
                  ∧ (autoAdvanceInterval st.1 ≠ None →
                     autoAdvance (options st.1) = true)).
  { subst st.
    apply (constructed_timer_invariant this (λ st,
             storedLive this st
             ∧ (autoAdvanceInterval st.1 ≠ None →
                autoAdvance (options st.1) = true)))
      with (es := es) in Hnew; [exact Hnew | | | |].
    - intros c1 c2 T1 Hh Ho [Hl Ha]. cbn [fst snd] in *. split.
      + intros k Hs. cbn [fst snd] in *. rewrite Hh in Hs. by apply Hl.
      + by rewrite Hh, Ho.
    - intros s [Hl Ha]. split; [by apply storedLive_stop|].
      destruct s as [c1 T1]. unfold stopAutoAdvance. cbn [fst] in *.
      by destruct (autoAdvanceInterval c1) eqn:E.
    - intros s Hon _. split; [apply storedLive_start|].
      destruct (startAutoAdvance_config this s) as (-> & _). done.
    - intros c0 Hnull _. split.
      + intros k Hs. cbn [fst] in Hs. congruence.
      + cbn [fst]. by rewrite Hnull. }
  destruct Hmore as [Hl Hauto].
  assert (Heq : st' = if decide (autoAdvanceInterval st.1 = Some h)
                      then next this st else st).
  { subst st'. destruct (decide (autoAdvanceInterval st.1 = Some h)) as [Hs|Hs].
    - destruct (Hl h Hs) as (iv & Hh & Hown). unfold dispatch.
      rewrite Hh. by rewrite decide_True.
    - apply foreign_tick_ignored; [apply Hinv | exact Hs]. }
  split; [exact Heq|]. intros Hs. rewrite Heq, decide_True by done.
  specialize (Hauto ltac:(by rewrite Hs)).
  destruct st as [c1 T1] eqn:Hst. cbn [fst snd] in *.
  unfold next, changeSlide.
  set (j := if loop (options c1) then _ else _).
  change (options (showSlide j (set_currentSlideIndex j c1)))
    with (options c1).
  rewrite Hauto.
  destruct (reset_replaces_timer this c1
              (showSlide j (set_currentSlideIndex j c1)) T1 eq_refl Hinv)
    as (Hnew' & _ & Hold & Hone).
  split; [exact Hnew'|]. split; [by apply Hold | exact Hone].
Qed.

Lemma only_the_stored_timer_ticks_witness :
  let st := run 0%nat [ClickNext; MouseEnter; MouseLeave] (demo true true 0) in
  let st' := dispatch 0%nat (TimerFires 3) st in
  autoAdvanceInterval st'.1 = Some (nextHandle st.2)
  ∧ live st'.2 !! 3%positive = None
  ∧ liveTimers 0%nat st'.2 = 1%nat.
Proof.
  refine (proj2 (only_the_stored_timer_ticks 0%nat (Some demoContainer)
           (demoOverrides true true 0) noTimers
           (demo true true 0).1 (demo true true 0).2
           [ClickNext; MouseEnter; MouseLeave] 3 _ _) _);
    vm_compute; reflexivity.
Defined.

(** ** Indicator clicks *)

(** X15. A click on the indicator at position [k] of an instance whose
    slide count is the length of its slide list: when slide [k] exists
    the index becomes [k], and slide [k] and indicator [k] are the only
    active slide and the only active indicator; when there are more
    indicators than slides and [k] is past the last slide, nothing
    changes. *)
Theorem indicator_click_selects this (k : nat) (e : Element) (st : St) :
  counted st.1 →
  indicators st.1 !! k = Some e →
  let st' := dispatch this (ClickIndicator k) st in
  (Z.of_nat k < totalSlides st.1 →
     currentSlideIndex st'.1 = Z.of_nat k
     ∧ countActive (slides st'.1) = 1%nat
     ∧ active <$> slides st'.1 !! k = Some true
     ∧ countActive (indicators st'.1) = 1%nat
     ∧ active <$> indicators st'.1 !! k = Some true)
  ∧ (totalSlides st.1 ≤ Z.of_nat k → st' = st).
Proof.
  intros Hc Hk st'.
  assert (Hst' : st' = goToSlide this (Z.of_nat k) st).
  { subst st'. unfold dispatch. by rewrite Hk. }
  rewrite Hst'. clear Hst' st'. split.
  - intros Hlt.
    destruct (goToSlide_renders this (Z.of_nat k) st) as (-> & -> & ->);
      [lia|].
    split; [reflexivity|].
    unfold showSlide. cbn [slides indicators set_nodes].
    destruct (render_inside (slides st.1) (Z.of_nat k)) as [Hs1 Hs2].
    { unfold counted in Hc. lia. }
    destruct (render_inside (indicators st.1) (Z.of_nat k)) as [Hi1 Hi2].
    { apply lookup_lt_Some in Hk. lia. }
    rewrite Nat2Z.id in *. by repeat split.
  - intros Hge. apply goToSlide_out_of_range. by right.
Qed.

Lemma indicator_click_selects_witness :
  let st' := dispatch 0%nat (ClickIndicator 2) (demo true true 0) in
  currentSlideIndex st'.1 = 2
  ∧ countActive (slides st'.1) = 1%nat
  ∧ active <$> slides st'.1 !! 2%nat = Some true
  ∧ countActive (indicators st'.1) = 1%nat
  ∧ active <$> indicators st'.1 !! 2%nat = Some true.
Proof.
  refine (proj1 (indicator_click_selects 0%nat 2 (mkElement 5 false)
                   (demo true true 0) _ _) _);
    vm_compute; reflexivity.
Defined.

(** ** Touch *)

(** X14. A whole gesture, [touchstart] at [xs] followed by [touchend] at
    [xe]: with [enableTouch] on the two coordinates are recorded and the
    outcome is no transition for [|xs - xe| <= 50], one forward transition
    for [xs - xe > 50] and one backward transition for [xs - xe < -50];
    with [enableTouch] off neither event changes anything. *)
Theorem touch_gesture this (xs xe : Z) (st : St) :
  let after := dispatch this (TouchEnd xe) (dispatch this (TouchStart xs) st) in
  let recorded : St := (set_touchEndX xe (set_touchStartX xs st.1), st.2) in
  (enableTouch (options st.1) = true →
     after = if Z.abs (xs - xe) <=? 50 then recorded
             else if 0 <? xs - xe then changeSlide this 1 recorded
             else changeSlide this (-1) recorded)
  ∧ (enableTouch (options st.1) = false → after = st).
Proof.
  intros after recorded. split; intros Ht.
  - by apply gesture_threshold.
  - subst after. destruct st as [c T]. cbn [fst] in Ht.
    unfold dispatch. cbn [fst snd]. rewrite Ht. cbn [fst]. by rewrite Ht.
Qed.

Lemma touch_gesture_witness :
  let recorded : St :=
    (set_touchEndX 40 (set_touchStartX 100 (demo true true 0).1),
     (demo true true 0).2) in
  dispatch 0%nat (TouchEnd 40) (dispatch 0%nat (TouchStart 100) (demo true true 0))
  = (if Z.abs (100 - 40) <=? 50 then recorded
     else if 0 <? 100 - 40 then changeSlide 0%nat 1 recorded
     else changeSlide 0%nat (-1) recorded).
Proof.
  refine (proj1 (touch_gesture 0%nat 100 40 (demo true true 0)) _).
  reflexivity.
Defined.

(** ** Construction that fails *)

(** X11. A construction without a container, or with a container that has
    no slide, stops before [init()]: the timer table is the one it was
    given even with [autoAdvance] on, and in the second case the fields
    are set but nothing is rendered and no handle is stored.  An
    initialised instance comes from a container with at least one slide
    only. *)
Theorem failed_construction_is_inert this (found : option Container)
    (ov : Overrides) (T : Timers) :
  (found = None → new this found ov T = (ContainerNotFound, T))
  ∧ (∀ cont, found = Some cont → slideNodes cont = [] →
       ∃ c, new this found ov T = (NoSlidesFound c, T)
            ∧ totalSlides c = 0
            ∧ indicators c = indicatorNodes cont
            ∧ currentSlideIndex c = default 0 (o_startSlide ov)
            ∧ autoAdvanceInterval c = None)
  ∧ (∀ c T', new this found ov T = (Initialised c, T') →
       ∃ cont, found = Some cont ∧ slideNodes cont ≠ []).
Proof.
  split; [by intros ->|]. split.
  - intros cont -> Hnil. unfold new. cbn zeta. cbn [totalSlides].
    rewrite Hnil. cbn [length Z.of_nat Z.eqb]. eexists.
    split; [reflexivity|]. by repeat split.
  - intros c T' Hnew. destruct found as [cont|]; [|discriminate].
    exists cont. split; [done|]. intros Hnil. unfold new in Hnew.
    cbn zeta in Hnew. cbn [totalSlides] in Hnew. rewrite Hnil in Hnew.
    discriminate.
Qed.

Lemma failed_construction_is_inert_witness :
  new 0%nat None (demoOverrides true true 0) busyTimers
  = (ContainerNotFound, busyTimers)
  ∧ ∃ c, new 0%nat (Some (mkContainer [] [mkElement 3 true] true true))
             (demoOverrides true true 0) busyTimers
         = (NoSlidesFound c, busyTimers)
         ∧ totalSlides c = 0
         ∧ indicators c = [mkElement 3 true]
         ∧ currentSlideIndex c = 0
         ∧ autoAdvanceInterval c = None.
Proof.
  split.
  - by apply (proj1 (failed_construction_is_inert 0%nat None
                       (demoOverrides true true 0) busyTimers)).
  - by apply (proj1 (proj2 (failed_construction_is_inert 0%nat
                (Some (mkContainer [] [mkElement 3 true] true true))
                (demoOverrides true true 0) busyTimers))
                (mkContainer [] [mkElement 3 true] true true)).
Defined.

(** ** Legacy functions on a registered identifier *)

Lemma invoke_no_change r (m : ref → St → St) (W : Page) c :
  objects W !! r = Some c → m r (c, timers W) = (c, timers W) →
  invoke r m W = W.
Proof.
  intros Hc Hm. unfold invoke. rewrite Hc, Hm.
  destruct W as [objs T reg]. cbn in *. by rewrite insert_id.
Qed.



(** X13. The legacy [currentSlide(index, id)] counts from 1: with a
    registered [id], an [index] below 1 (so also 0) or above the slide
    count leaves the whole page as it is. *)
Theorem legacy_currentSlide_is_one_based (index : Z)
    (carouselId : option string) (W : Page) (r : ref) (c : Carousel.t) :
  globalCarousels W !! Legacy.idOrDefault carouselId = Some r →
  objects W !! r = Some c →
  index < 1 ∨ totalSlides c < index →
  Legacy.currentSlide index carouselId W = W.
Proof.
  intros Hr Hc Hout. unfold Legacy.currentSlide. rewrite Hr.
  apply (invoke_no_change r _ W c Hc).
  apply goToSlide_out_of_range. cbn [fst]. lia.
Qed.

Lemma legacy_currentSlide_is_one_based_witness :
  let W := mkPage {[ 0%nat := (demo true true 2).1 ]} (demo true true 2).2
                  {[ "default"%string := 0%nat ]} in
  Legacy.currentSlide 0 None W = W ∧ Legacy.currentSlide 4 None W = W.
Proof.
  intros W. split.
  - apply (legacy_currentSlide_is_one_based 0 None W 0%nat
             (demo true true 2).1); [reflexivity | reflexivity |].
    left. reflexivity.
  - apply (legacy_currentSlide_is_one_based 4 None W 0%nat
             (demo true true 2).1); [reflexivity | reflexivity |].
    right. reflexivity.
Defined.

(** ** An index out of range does not last *)




